(** * Rho: the argument-to-configuration resolution pipeline

    A shallow embedding of [lib/options.js], [lib/objects.js] and the
    delivery step of [lib/commands.js], with the properties of the
    resolution pipeline stated and proved over it.

    JavaScript values are embedded as follows.
    - [string | undefined] is [option string]; what [JSON.parse] returns
      or a merge builds, or [undefined], is [option json].
    - array indices and the results of [R.lastIndexOf], [R.inc] and [_.max]
      are integers ([Z]), because [R.lastIndexOf] answers [-1].
    - [fs] and [console] are an explicit state threaded through a small
      state-and-exception monad.
    - Ramda's curried functions read an argument that has the value
      [true] for the property [@@functional/placeholder] as a gap in
      their argument list.  The embedding is of the program on documents
      without that property; it does not follow Ramda there. *)

From stdpp Require Import base option list strings gmap pretty sorting.
From Stdlib Require Import ZArith Lia.

Open Scope string_scope.
Open Scope list_scope.
Open Scope nat_scope.

#[local] Set Warnings "-register-all".

(** ** lib/options.js *)

Module Options.

(** [R.isEmpty] on arrays. *)
Definition isEmpty {A} (xs : list A) : bool :=
  match xs with [] => true | _ => false end.

(** [R.intersection]: the shorter list is filtered by membership in the
    longer one, and duplicates are removed.  ([R.uniq] keeps the first of
    equal elements and [remove_dups] the last; the program only asks
    whether the result is empty.) *)
Definition intersection (list1 list2 : list string) : list string :=
  let '(lookupList, filteredList) :=
    if bool_decide (length list2 < length list1)
    then (list1, list2) else (list2, list1) in
  remove_dups (filter (λ x, x ∈ lookupList) filteredList).

(** [isOption = R.curry(R.pipe(R.intersection, R.isEmpty, R.not))]. *)
Definition isOption (keys args : list string) : bool :=
  negb (isEmpty (intersection keys args)).

(** The loop of [R.lastIndexOf]: [idx] runs from [xs.length - 1] down to
    [0]; [n] is [idx + 1]. *)
Fixpoint lastIndexOf_loop (target : string) (xs : list string) (n : nat) : Z :=
  match n with
  | O => (-1)%Z
  | S idx =>
      if bool_decide (xs !! idx = Some target) then Z.of_nat idx
      else lastIndexOf_loop target xs idx
  end.

Definition lastIndexOf (target : string) (xs : list string) : Z :=
  lastIndexOf_loop target xs (length xs).

Definition inc (n : Z) : Z := (n + 1)%Z.

(** [_.max]: [undefined] on the empty array, otherwise the first
    greatest element. *)
Definition _max (array : list Z) : option Z :=
  foldl (λ computed current,
           match computed with
           | None => Some current
           | Some c => if bool_decide (c < current)%Z then Some current else computed
           end) None array.

(** [R.nth]: a negative offset counts from the end; an index outside the
    array reads [undefined]. *)
Definition nth {A} (offset : Z) (list : list A) : option A :=
  let idx := if bool_decide (offset < 0)%Z
             then (Z.of_nat (length list) + offset)%Z else offset in
  if bool_decide (idx < 0)%Z then None else list !! Z.to_nat idx.

(** [parseOption]: when some key is among the arguments, the greatest
    [lastIndexOf + 1] over the keys is read in [args]. *)
Definition parseOption (keys args : list string) : option string :=
  if isOption keys args then
    m ← _max ((λ key, inc (lastIndexOf key args)) <$> keys);
    nth m args
  else None.

(** [R.pickBy] on an array: [for (prop in obj)] visits the indices in
    increasing order and keeps those whose element passes the test. *)
Definition pickBy {A} (test : A → bool) (obj : list A) : list (nat * A) :=
  filter (λ kv, test kv.2 = true) (imap pair obj).

(** [allIndicesOf]: the kept property names, read back as numbers. *)
Definition allIndicesOf (key : string) (args : list string) : list Z :=
  (λ kv, Z.of_nat kv.1) <$> pickBy (String.eqb key) args.

(** [R.flatten] on an array of arrays of numbers. *)
Definition flatten {A} (xss : list (list A)) : list A := concat xss.

(** [_.compact]: drops the falsy entries, which among
    [string | undefined] are [undefined] and the empty string. *)
Definition compact (xs : list (option string)) : list string :=
  omap (λ x, match x with
             | Some s => if String.eqb s "" then None else Some s
             | None => None
             end) xs.

Definition parseOptionsMultiple (keys args : list string) : list string :=
  compact
    ((λ idx, nth (inc idx) args)
       <$> flatten ((λ key, allIndicesOf key args) <$> keys)).

End Options.

(** ** JavaScript values and Ramda's deep merge *)

Module Json.

(** What the internal slot [[Prototype]] of an object holds:
    [Object.prototype], as for every object literal and every object of
    [JSON.parse]; [null]; or an object or array of the program's own. *)
Inductive prototype (A : Type) : Type :=
| ObjectPrototype
| NullPrototype
| Prototype (v : A).

Arguments ObjectPrototype {A}.
Arguments NullPrototype {A}.
Arguments Prototype {A} v.

(** The values [JSON.parse] and [R.mergeDeepLeft] build.  A number is
    kept as the decimal [mantissa * 10 ^ exponent] of its literal.  A
    string is kept as the UTF-8 text of its characters, a surrogate that
    stands alone in the three bytes of its number.  An object is its
    prototype and the list of its own properties in the order
    JavaScript enumerates them; all of them are enumerable data
    properties. *)
Inductive json :=
| JNull
| JBool (b : bool)
| JNum (mantissa exponent : Z)
| JStr (s : string)
| JArr (xs : list json)
| JObj (proto : prototype json) (kvs : list (string * json)).

(** Own enumerable properties, in enumeration order. *)
Abbreviation object := (list (string * json)).

(** The first property of a list with a given name. *)
Fixpoint prop (k : string) (obj : object) : option json :=
  match obj with
  | [] => None
  | (k', v) :: obj' => if String.eqb k k' then Some v else prop k obj'
  end.

(** *** Strings as sequences of UTF-16 code units *)

Definition byte (c : Ascii.ascii) : N := Ascii.N_of_ascii c.

Definition char (n : N) : Ascii.ascii := Ascii.ascii_of_N n.

(** A byte [10xxxxxx]. *)
Definition continuation (c : Ascii.ascii) : bool :=
  ((128 <=? byte c) && (byte c <? 192))%N.

(** The three bytes of a code unit from [0x800] on. *)
Definition unit3 (u : N) : string :=
  String (char (224 + N.shiftr u 12))
    (String (char (128 + N.land (N.shiftr u 6) 63))
       (String (char (128 + N.land u 63)) EmptyString)).

(** The code point of a sequence of four bytes. *)
Definition code_point4 (b0 b1 b2 b3 : Ascii.ascii) : N :=
  (N.shiftl (N.land (byte b0) 7) 18 + N.shiftl (N.land (byte b1) 63) 12
   + N.shiftl (N.land (byte b2) 63) 6 + N.land (byte b3) 63)%N.

(** The two surrogates of a code point from [0x10000] on. *)
Definition surrogates (cp : N) : list string :=
  [unit3 (55296 + N.shiftr (cp - 65536) 10);
   unit3 (56320 + N.land (cp - 65536) 1023)]%N.

(** The code units of a text, each as a text of its own: a character of
    one, two or three bytes is one unit, a character of four bytes is
    its two surrogates, and a byte that starts no character is passed
    on alone. *)
Fixpoint code_units (s : string) : list string :=
  match s with
  | EmptyString => []
  | String b0 s0 =>
      let alone := String b0 EmptyString :: code_units s0 in
      if (byte b0 <? 192)%N then alone
      else
        match s0 with
        | String b1 s1 =>
            if negb (continuation b1) then alone
            else if (byte b0 <? 224)%N then
              String b0 (String b1 EmptyString) :: code_units s1
            else
              match s1 with
              | String b2 s2 =>
                  if negb (continuation b2) then alone
                  else if (byte b0 <? 240)%N then
                    String b0 (String b1 (String b2 EmptyString))
                      :: code_units s2
                  else
                    match s2 with
                    | String b3 s3 =>
                        let cp := code_point4 b0 b1 b2 b3 in
                        if continuation b3 && (byte b0 <? 248)%N
                           && (65536 <=? cp)%N && (cp <? 1114112)%N
                        then surrogates cp ++ code_units s3
                        else alone
                    | EmptyString => alone
                    end
              | EmptyString => alone
              end
        | EmptyString => alone
        end
  end.

(** *** Own properties *)

(** The number an array index is written as: [0] to [2^32 - 2] in
    decimal without leading zeros. *)
Definition digit (c : Ascii.ascii) : option N :=
  if ((48 <=? byte c) && (byte c <=? 57))%N then Some (byte c - 48)%N
  else None.

Fixpoint digits (acc : N) (s : string) : option N :=
  match s with
  | EmptyString => Some acc
  | String c s' =>
      match digit c with
      | Some d => digits (10 * acc + d)%N s'
      | None => None
      end
  end.

Definition array_index (k : string) : option N :=
  match k with
  | EmptyString => None
  | String c s' =>
      if (byte c =? 48)%N && negb (String.eqb s' EmptyString) then None
      else
        match digits 0 k with
        | Some n => if (n <=? 4294967294)%N then Some n else None
        | None => None
        end
  end.

(** [v[k]] for an own property [k]: a property of an object, an element
    or the length of an array, a code unit or the length of a string;
    a number, a boolean and [null] have none. *)
Definition own_property (k : string) (v : json) : option json :=
  match v with
  | JObj _ kvs => prop k kvs
  | JArr xs =>
      if String.eqb k "length" then Some (JNum (Z.of_nat (length xs)) 0)
      else
        match array_index k with
        | Some n => xs !! N.to_nat n
        | None => None
        end
  | JStr s =>
      if String.eqb k "length"
      then Some (JNum (Z.of_nat (length (code_units s))) 0)
      else
        match array_index k with
        | Some n => JStr <$> code_units s !! N.to_nat n
        | None => None
        end
  | _ => None
  end.

(** [_has(k, v)]: [Object.prototype.hasOwnProperty.call(v, k)] for a
    value other than [null]. *)
Definition _has (k : string) (v : json) : bool :=
  match own_property k v with Some _ => true | None => false end.

(** What [for (k in v)] visits, filtered by [_has(k, v)]: the properties
    of an object, the indices of an array, the indices of a string, and
    nothing for a number, a boolean or [null].  Inherited properties do
    not pass the filter. *)
Definition enumerable (v : json) : object :=
  match v with
  | JObj _ kvs => kvs
  | JArr xs => imap (λ i x, (pretty i, x)) xs
  | JStr s => imap (λ i c, (pretty i, JStr c)) (code_units s)
  | _ => []
  end.

(** [v[k]] for a name that no built-in prototype defines: the own
    property, or else the property of the closest object of the
    prototype chain that has one. *)
Fixpoint get (k : string) (v : json) : option json :=
  match own_property k v with
  | Some x => Some x
  | None =>
      match v with
      | JObj (Prototype v') _ => get k v'
      | _ => None
      end
  end.

(** [ToBoolean]: [null], [false], a number that is zero and the empty
    string are falsy.  The literal [m * 10 ^ e] reads as zero when
    [m = 0] or when it rounds to zero, that is at most [2 ^ -1075]. *)
Definition truthy (v : json) : bool :=
  match v with
  | JNull => false
  | JBool b => b
  | JNum m e =>
      negb ((m =? 0)%Z
            || ((e <? 0)%Z && (Z.abs m * 2 ^ 1075 <=? 10 ^ (- e))%Z))
  | JStr s => negb (String.eqb s EmptyString)
  | JArr _ | JObj _ _ => true
  end.

(** *** Assignment to a property *)

(** An object under construction: its prototype and its own
    properties. *)
Abbreviation under_construction := (prototype json * object)%type.

(** A new own property takes its place in the enumeration order: an
    array index among the array indices, in ascending order and before
    every other name; any other name at the end. *)
Fixpoint insert_index (n : N) (k : string) (v : json) (kvs : object)
  : object :=
  match kvs with
  | [] => [(k, v)]
  | (k', v') :: kvs' =>
      match array_index k' with
      | Some n' =>
          if (n' <? n)%N then (k', v') :: insert_index n k v kvs'
          else (k, v) :: kvs
      | None => (k, v) :: kvs
      end
  end.

Definition define (k : string) (v : json) (kvs : object) : object :=
  match array_index k with
  | Some n => insert_index n k v kvs
  | None => kvs ++ [(k, v)]
  end.

(** The value of an own property changes in place. *)
Fixpoint replace (k : string) (v : json) (kvs : object) : object :=
  match kvs with
  | [] => []
  | (k', v') :: kvs' =>
      if String.eqb k k' then (k', v) :: kvs'
      else (k', v') :: replace k v kvs'
  end.

(** Whether a lookup of [__proto__] that starts at [v] ends at the
    accessor of [Object.prototype]: it does unless an object on the way
    has a property of that name of its own, or the chain ends in
    [null]. *)
Fixpoint inherits_accessor (v : json) : bool :=
  match v with
  | JObj p kvs =>
      match prop "__proto__" kvs with
      | Some _ => false
      | None =>
          match p with
          | ObjectPrototype => true
          | NullPrototype => false
          | Prototype v' => inherits_accessor v'
          end
      end
  | _ => true
  end.

(** [result[k] = v].  An own property is overwritten.  Without one, the
    name [__proto__] reaches the setter of [Object.prototype], which
    makes an object, an array or [null] the prototype of [result],
    ignores every other value, and creates no property.  Any other name,
    and [__proto__] where the setter is out of reach, becomes a new own
    property. *)
Definition assign (k : string) (v : json) (result : under_construction)
  : under_construction :=
  match prop k result.2 with
  | Some _ => (result.1, replace k v result.2)
  | None =>
      if String.eqb k "__proto__"
         && inherits_accessor (JObj result.1 result.2)
      then
        match v with
        | JObj _ _ | JArr _ => (Prototype v, result.2)
        | JNull => (NullPrototype, result.2)
        | _ => result
        end
      else (result.1, define k v result.2)
  end.

(** *** The merge *)

(** The first loop of [R.mergeWithKey(fn, l, r)], over the properties
    [for (k in l)] passes on: it assigns [fn(k, l[k], r[k])] when
    [_has(k, r)], and [l[k]] otherwise. *)
Definition first_loop (fn : string → json → json → json) (r : json)
  (result : under_construction) (l : object) : under_construction :=
  foldl (λ result kv,
           assign kv.1
             (match own_property kv.1 r with
              | Some rVal => fn kv.1 kv.2 rVal
              | None => kv.2
              end) result)
    result l.

(** The second loop, over the properties [for (k in r)] passes on: it
    assigns those that [result] does not have as its own by then. *)
Definition second_loop (result : under_construction) (rs : object)
  : under_construction :=
  foldl (λ result kv,
           match prop kv.1 result.2 with
           | Some _ => result
           | None => assign kv.1 kv.2 result
           end)
    result rs.

(** [R.mergeWithKey(fn, l, r)], with [l] the properties [for (k in l)]
    passes on: [result] starts as [{}] and goes through the two
    loops. *)
Definition mergeWithKey (fn : string → json → json → json)
  (l : object) (r : json) : json :=
  let result := first_loop fn r (ObjectPrototype, []) l in
  let result := second_loop result (enumerable r) in
  JObj result.1 result.2.

(** The callback [R.mergeDeepWithKey] hands to [R.mergeWithKey]: when
    [_isObject(lVal) && _isObject(rVal)], that is when both are objects
    (not arrays, not null), they are merged recursively; any other pair
    goes to [fn]. *)
Fixpoint mergeDeepWithKey_callback (fn : string → json → json → json)
  (k : string) (lVal rVal : json) {struct lVal} : json :=
  match lVal, rVal with
  | JObj _ l', JObj _ _ =>
      mergeWithKey (mergeDeepWithKey_callback fn) l' rVal
  | _, _ => fn k lVal rVal
  end.

(** [R.mergeDeepWithKey(fn, lObj, rObj)], with [l] the properties
    [for (k in lObj)] passes on. *)
Definition mergeDeepWithKey (fn : string → json → json → json)
  (l : object) (r : json) : json :=
  mergeWithKey (mergeDeepWithKey_callback fn) l r.

(** [R.mergeDeepLeft(lObj, rObj)], likewise. *)
Definition mergeDeepLeft (l : object) (r : json) : json :=
  mergeDeepWithKey (λ k lVal rVal, lVal) l r.

End Json.

Import Options Json.

(** ** The file system, the console and thrown errors *)

Module Node.

(** A thrown [Error]: its [name] and [message]. *)
Record error := Error { name : string; message : string }.

(** An entry of the file system: the text of a readable file, or the
    error that reading the entry throws (a directory, a file without
    read permission).  A path without entry is a file that does not
    exist. *)
Abbreviation entry := (error + string)%type.

(** What the program can observe and change: the files and the lines
    written by [console.log], oldest first. *)
Record state := State { files : gmap string entry; console : list string }.

(** A computation reads and changes the state and either returns or
    throws. *)
Definition M (A : Type) : Type := state → (error + A) * state.

#[global] Instance M_ret : MRet M := λ A a σ, (inr a, σ).

#[global] Instance M_bind : MBind M := λ A B f m σ,
  match m σ with
  | (inr a, σ') => f a σ'
  | (inl err, σ') => (inl err, σ')
  end.

(** A pure step that may throw. *)
Definition lift {A} (r : error + A) : M A := λ σ, (r, σ).

(** [R.tryCatch(tryer, catcher)]: the catcher runs in the state the tryer
    left behind. *)
Definition tryCatch {A} (tryer : M A) (catcher : error → M A) : M A := λ σ,
  match tryer σ with
  | (inr a, σ') => (inr a, σ')
  | (inl err, σ') => catcher err σ'
  end.

(** [console.log(line)]. *)
Definition console_log (line : string) : M unit := λ σ,
  (inr (), State (files σ) (console σ ++ [line])).

(** The test [R.reduce] makes after every step:
    [acc && acc['@@transducer/reduced']]. *)
Definition reduced (acc : option json) : bool :=
  match acc with
  | Some v =>
      truthy v
      && match get "@@transducer/reduced" v with
         | Some flag => truthy flag
         | None => false
         end
  | None => false
  end.

(** [R.reduce] over an array with an effectful step: after a step that
    leaves a reduced accumulator the loop stops and answers
    [acc['@@transducer/value']]. *)
Fixpoint reduce {B} (f : option json → B → M (option json))
  (acc : option json) (xs : list B) : M (option json) :=
  match xs with
  | [] => mret acc
  | x :: xs' =>
      acc' ← f acc x;
      if reduced acc' then mret (acc' ≫= get "@@transducer/value")
      else reduce f acc' xs'
  end.

(** [R.filter] with an effectful predicate. *)
Fixpoint filterM {A} (pred : A → M bool) (xs : list A) : M (list A) :=
  match xs with
  | [] => mret []
  | x :: xs' =>
      keep ← pred x; rest ← filterM pred xs';
      mret (if keep : bool then x :: rest else rest)
  end.

(** The error of a read of a path without entry. *)
Definition ENOENT (path : string) : error :=
  Error "Error" ("ENOENT: no such file or directory, open '" +:+ path +:+ "'").

(** The error of [Object.prototype.hasOwnProperty.call(null, k)]. *)
Definition TypeError_null : error :=
  Error "TypeError" "Cannot convert undefined or null to object".

(** A template literal prints [undefined] for a missing value. *)
Definition show (path : option string) : string := default "undefined" path.

End Node.

Import Node.

(** ** lib/objects.js *)

(** [R.isNil]: [undefined] or [null].  Among the values of a type only
    JSON's [null] is nil. *)
Class IsNull (A : Type) := is_null : A → bool.
#[global] Instance string_is_null : IsNull string := λ _, false.
#[global] Instance json_is_null : IsNull json :=
  λ v, match v with JNull => true | _ => false end.

Definition isNil {A} `{IsNull A} (x : option A) : bool :=
  match x with None => true | Some v => is_null v end.

Module Objects.
Section Env.

(** [JSON.parse] after [JSON.minify]: the parsed value, or the
    [SyntaxError] thrown. *)
Variable JSON_parse : string → error + json.

(** The [TypeError] of the [fs] functions for a path that is not a
    string. *)
Variable ERR_INVALID_ARG_TYPE : error.

(** [fs.existsSync]: [false] for [undefined]. *)
Definition existsSync (path : option string) : M bool := λ σ,
  (inr match path with
       | Some p => bool_decide (is_Some (files σ !! p))
       | None => false
       end, σ).

(** [fs.readFileSync(path, 'utf8')]. *)
Definition readFileSync (path : option string) : M string := λ σ,
  match path with
  | None => (inl ERR_INVALID_ARG_TYPE, σ)
  | Some p =>
      match files σ !! p with
      | None => (inl (ENOENT p), σ)
      | Some (inl err) => (inl err, σ)
      | Some (inr text) => (inr text, σ)
      end
  end.

(** The line both catchers of this module print. *)
Definition diagnostic (err : error) (objPath : option string) : string :=
  name err +:+ ": " +:+ message err +:+ ". <File: '" +:+ show objPath +:+ "'>".

Definition parseObject (objPath : option string) : M (option json) :=
  tryCatch
    (text ← readFileSync objPath;
     v ← lift (JSON_parse text);
     mret (Some v))
    (λ err, _ ← console_log (diagnostic err objPath); mret None).

Definition getDefaultObject (defaultValue : option string) : M (option json) :=
  b ← existsSync defaultValue;
  if b : bool then parseObject defaultValue else mret None.

Definition getObjectOverDefault (defaultValue : option string)
  (keys args : list string) : M (option json) :=
  let objPath := parseOption keys args in
  if negb (isNil objPath) then
    obj ← parseObject objPath;
    if isNil obj then getDefaultObject defaultValue else mret obj
  else getDefaultObject defaultValue.

Definition getObject (keys args : list string) : M (option json) :=
  parseObject (parseOption keys args).

(** [R.mergeDeepLeft(lObj)(rObj)]: [for (k in undefined)] visits
    nothing.  With no property on the left nothing is asked of [rObj];
    with one, [_has(k, null)] throws. *)
Definition mergeDeepLeft_call (lObj : option json) (rObj : json)
  : error + json :=
  let l := from_option enumerable [] lObj in
  if is_null rObj && negb (isEmpty l) then inl TypeError_null
  else inr (mergeDeepLeft l rObj).

(** The step [R.reduce] runs in [parseObjects]. *)
Definition parseObjects_step (obj : option json) (objPath : option string)
  : M (option json) :=
  tryCatch
    (text ← readFileSync objPath;
     v ← lift (JSON_parse text);
     merged ← lift (mergeDeepLeft_call obj v);
     mret (Some merged))
    (λ err, _ ← console_log (diagnostic err objPath); mret obj).

Definition parseObjects (objPaths : list (option string)) : M (option json) :=
  if negb (isEmpty objPaths) then reduce parseObjects_step None objPaths
  else mret None.

Definition getDefaultObjects (defaultValues : list (option string))
  : M (option json) :=
  existing ← filterM existsSync defaultValues;
  parseObjects existing.

(** [getObjects]: the merge over the defaults runs outside every
    [R.tryCatch]. *)
Definition getObjects (defaultValues : list (option string))
  (keys args : list string) : M (option json) :=
  parsedObjects ← parseObjects (Some <$> parseOptionsMultiple keys args);
  if negb (isNil parsedObjects) then
    defaults ← getDefaultObjects defaultValues;
    match defaults with
    | Some d =>
        if negb (is_null d) then
          merged ← lift (mergeDeepLeft_call parsedObjects d);
          mret (Some merged)
        else mret parsedObjects
    | None => mret parsedObjects
    end
  else getDefaultObjects defaultValues.

(** *** Vocabulary of the loader's properties *)

(** The state after more console lines. *)
Definition logged (σ : state) (lines : list string) : state :=
  State (files σ) (console σ ++ lines).

(** Reading and parsing the file at a path: the document, or the error
    thrown on the way. *)
Definition load (σ : state) (path : option string) : error + json :=
  match path with
  | None => inl ERR_INVALID_ARG_TYPE
  | Some p =>
      match files σ !! p with
      | None => inl (ENOENT p)
      | Some (inl err) => inl err
      | Some (inr text) => JSON_parse text
      end
  end.

(** The file at a path yields no document. *)
Definition absent (σ : state) (path : option string) : Prop :=
  ∃ err, load σ path = inl err.

(** The file at a path yields a document. *)
Definition loads (σ : state) (path : option string) : bool :=
  match load σ path with inr _ => true | inl _ => false end.

End Env.
End Objects.

(** ** lib/commands.js *)

Module Commands.

(** The characters the printed texts escape. *)
Definition TAB : string := String (Ascii.ascii_of_nat 9) EmptyString.
Definition LF : string := String (Ascii.ascii_of_nat 10) EmptyString.
Definition DQ : string := String (Ascii.ascii_of_nat 34) EmptyString.

(** The lines [help] prints, one per [console.log]. *)
Definition help_lines : list string :=
  [
   "Usage: rho -d [ diagram.json ] [options]";
   "Usage: rho -d [ diagram.json ] -o [ output.svg ] [options]" +:+ LF;
   "Options:";
   "  -c, --config" +:+ TAB +:+ " [ mathjax_config.json ]" +:+ TAB
     +:+ " Path to the mathjax configuration file.";
   "  " +:+ TAB +:+ TAB +:+ TAB +:+ TAB +:+ TAB +:+ TAB
     +:+ " Only the last element is valid.";
   "  -d, --diagram" +:+ TAB +:+ " [ diagram.json ]" +:+ TAB +:+ TAB
     +:+ " Path to the diagram json file.";
   "  " +:+ TAB +:+ TAB +:+ TAB +:+ TAB +:+ TAB +:+ TAB
     +:+ " Required option.";
   "  " +:+ TAB +:+ TAB +:+ TAB +:+ TAB +:+ TAB +:+ TAB
     +:+ " Only the last element is valid.";
   "  -h, --help" +:+ TAB +:+ TAB +:+ TAB +:+ TAB +:+ TAB +:+ " Call help.";
   "  -o, --output" +:+ TAB +:+ " [ output.svg ]" +:+ TAB +:+ TAB
     +:+ TAB +:+ " Path to the output diagram svg file.";
   "  " +:+ TAB +:+ TAB +:+ TAB +:+ TAB +:+ TAB +:+ TAB
     +:+ " Only the last element is valid.";
   "  " +:+ TAB +:+ TAB +:+ TAB +:+ TAB +:+ TAB +:+ TAB
     +:+ " If not defined, nothing will happen.";
   "  -s, --style" +:+ TAB +:+ " [ style.json ]" +:+ TAB +:+ TAB
     +:+ TAB +:+ " Path to the style files.";
   "  " +:+ TAB +:+ TAB +:+ TAB +:+ TAB +:+ TAB +:+ TAB
     +:+ " You can define multiple style files.";
   "  " +:+ TAB +:+ TAB +:+ TAB +:+ TAB +:+ TAB +:+ TAB
     +:+ " The priority of properties is given in";
   "  " +:+ TAB +:+ TAB +:+ TAB +:+ TAB +:+ TAB +:+ TAB
     +:+ " the order of the ad, starting from the";
   "  " +:+ TAB +:+ TAB +:+ TAB +:+ TAB +:+ TAB +:+ TAB +:+ " first file.";
   "  -t, --typeset" +:+ TAB +:+ " [ mathjax_typeset.json ]" +:+ TAB
     +:+ " Path to the mathjax typeset file.";
   "  " +:+ TAB +:+ TAB +:+ TAB +:+ TAB +:+ TAB +:+ TAB
     +:+ " Only the last element is valid.";
   "  -v, --version" +:+ TAB +:+ TAB +:+ TAB +:+ TAB +:+ TAB
     +:+ " Print " +:+ DQ +:+ "Rho" +:+ DQ +:+ " version.";
   "  -w, --write" +:+ TAB +:+ TAB +:+ TAB +:+ TAB +:+ TAB
     +:+ " Print result svg to the console."
  ].

(** [console.log] of each line in turn. *)
Fixpoint console_log_each (lines : list string) : M unit :=
  match lines with
  | [] => mret ()
  | line :: lines' => _ ← console_log line; console_log_each lines'
  end.

Definition help : M unit := console_log_each help_lines.

Definition version : M unit :=
  console_log (DQ +:+ "Rho" +:+ DQ +:+ " version: 0.0.1").

Section Dispatch.

(** [JSON.parse] after [JSON.minify], as in [lib/objects.js]. *)
Variable JSON_parse : string → error + json.

(** The [TypeError] of the [fs] functions for a path that is not a
    string. *)
Variable ERR_INVALID_ARG_TYPE : error.

(** What the operating system answers to a write of a text at a path,
    given the files there are: [None] when the whole text is written;
    otherwise the error, and the text the file at the path is left with
    when the failure came after it was opened, which creates or empties
    it. *)
Variable write_error :
  gmap string entry → string → string → option (error * option string).

(** [path.join], [path.dirname] and [process.execPath]. *)
Variable path_join : string → string → string.
Variable path_dirname : string → string.
Variable execPath : string.

(** The rendering engine of the [psi] package: the values of its class
    [Diagram]; [new Diagram(object, {style, mjConfig, mjTypeset})], which
    may throw; [generate()], which throws or returns a promise that
    rejects (an error), that never settles ([None]) or that resolves
    with a diagram; and [diagram.svg.svg()], which may throw. *)
Variable Diagram : Type.
Variable Diagram_new :
  json → option json → option json → option json → error + Diagram.
Variable generate : Diagram → error + option Diagram.
Variable svg_svg : Diagram → error + string.

Definition pretendInsideExecDir (fileName : string) : string :=
  path_join (path_dirname execPath) fileName.

Definition checkIfExists (filePath : option string) : M (option string) :=
  b ← Objects.existsSync filePath;
  if b : bool then mret filePath else mret None.

Definition setDefault (fileName : string) : M (option string) :=
  checkIfExists (Some (pretendInsideExecDir fileName)).

(** The line the catcher of [createDiagram] prints. *)
Definition not_created (err : error) : string :=
  name err +:+ ": " +:+ message err +:+ ". Diagram was not created.".

(** [createDiagram].  The three options of the object literal are
    evaluated in the order written, each default path before the call
    that takes it.  For a nil diagram object [R.when] returns it as it
    is; the caller only asks [R.is(Diagram)], so it is [None] here. *)
Definition createDiagram (args : list string) : M (option Diagram) :=
  diagramObject ← Objects.getObject JSON_parse ERR_INVALID_ARG_TYPE
                    ["-d"; "--diagram"] args;
  match diagramObject with
  | Some v =>
      if is_null v then mret None
      else
        tryCatch
          (styleDefault ← setDefault "style.json";
           style ← Objects.getObjects JSON_parse ERR_INVALID_ARG_TYPE
                     [styleDefault] ["-s"; "--style"] args;
           configDefault ← setDefault "mathjax_config.json";
           mjConfig ← Objects.getObjectOverDefault JSON_parse
                        ERR_INVALID_ARG_TYPE configDefault
                        ["-c"; "--config"] args;
           typesetDefault ← setDefault "mathjax_typeset.json";
           mjTypeset ← Objects.getObjectOverDefault JSON_parse
                         ERR_INVALID_ARG_TYPE typesetDefault
                         ["-t"; "--typeset"] args;
           diagram ← lift (Diagram_new v style mjConfig mjTypeset);
           mret (Some diagram))
          (λ err, _ ← console_log (not_created err); mret None)
  | None => mret None
  end.

(** What a read of the file at a path gives once the file holds a text:
    the text, unless the entry could not be read before. *)
Definition store (path text : string) (fs : gmap string entry)
  : gmap string entry :=
  match fs !! path with
  | Some (inl err) => fs
  | _ => <[path := inr text]> fs
  end.

(** [fs.writeFileSync(path, data)]: the file is opened with flag ['w'],
    written and closed. *)
Definition writeFileSync (path : option string) (data : string) : M unit := λ σ,
  match path with
  | None => (inl ERR_INVALID_ARG_TYPE, σ)
  | Some p =>
      match write_error (files σ) p data with
      | Some (err, Some rest) =>
          (inl err, State (store p rest (files σ)) (console σ))
      | Some (err, None) => (inl err, σ)
      | None => (inr (), State (store p data (files σ)) (console σ))
      end
  end.

(** The line the catcher of [output] prints. *)
Definition not_generated (err : error) : string :=
  name err +:+ ": " +:+ message err +:+ ". Diagram was not generated.".

(** [output(args, diagram)]: both arguments of the write are evaluated
    inside the [R.tryCatch]. *)
Definition output (args : list string) (diagram : Diagram) : M unit :=
  tryCatch
    (let path := parseOption ["-o"; "--output"] args in
     data ← lift (svg_svg diagram);
     writeFileSync path data)
    (λ err, console_log (not_generated err)).

(** The callback [diagram] passes to [generate.then]: [R.cond] runs the
    action of the first pair whose condition holds, and none when no
    condition holds.  Nothing catches what the second action throws. *)
Definition diagram_then (args : list string) (diagram : Diagram) : M unit :=
  if isOption ["-o"; "--output"] args then output args diagram
  else if isOption ["-w"; "--write"] args then
    data ← lift (svg_svg diagram);
    console_log data
  else mret ().

(** [diagram], with the callback of [then] run when the promise of
    [generate()] resolves.  Nothing catches what [generate()] throws or
    rejects with. *)
Definition diagram (args : list string) : M unit :=
  created ← createDiagram args;
  match created with
  | Some d =>
      generated ← lift (generate d);
      match generated with
      | Some d' => diagram_then args d'
      | None => mret ()
      end
  | None => mret ()
  end.

(** [applyCommands]: [R.cond] runs the first command whose option is
    among the arguments, and [help] when none is. *)
Definition applyCommands (args : list string) : M unit :=
  if isOption ["-h"; "--help"] args then help
  else if isOption ["-v"; "--version"] args then version
  else if isOption ["-d"; "--diagram"] args then diagram args
  else help.

End Dispatch.
End Commands.

(** ** Vocabulary of the resolver's properties *)

(** [p] is the greatest index at which [args] holds one of [keys]. *)
Definition last_occurrence (keys args : list string) (p : nat) : Prop :=
  (∃ k : string, k ∈ keys ∧ args !! p = Some k)
  ∧ ∀ (q : nat) (k : string), k ∈ keys → args !! q = Some k → q ≤ p.

(** The positions of [spelling] in [args], in increasing order. *)
Definition occurrencesOf (spelling : string) (args : list string) : list nat :=
  filter (λ i, args !! i = Some spelling) (seq 0 (length args)).

(** The reading of [resolveAll] that keeps every following token: per
    spelling in the order given, per occurrence from left to right, the
    token at position + 1, nothing when no token follows. *)
Definition resolveAll_every_token (keys args : list string) : list string :=
  keys ≫= λ key, omap (λ i, args !! S i) (occurrencesOf key args).

(** One occurrence after [_.compact]: the following token when there is
    one and it is not the empty string. *)
Definition kept_token (args : list string) (i : nat) : list string :=
  match args !! S i with
  | Some s => if decide (s = "") then [] else [s]
  | None => []
  end.

(** ** Vocabulary of the merger's properties *)

(** The order in which JavaScript enumerates the names of own
    properties: the array indices in ascending order, then the other
    names. *)
Definition key_before (k1 k2 : string) : Prop :=
  match array_index k1, array_index k2 with
  | Some n1, Some n2 => (n1 < n2)%N
  | Some _, None => True
  | None, Some _ => False
  | None, None => True
  end.

(** The own properties of an object as JavaScript holds them: one
    property per name, listed in enumeration order. *)
Definition well_formed (kvs : object) : Prop :=
  NoDup kvs.*1 ∧ StronglySorted key_before kvs.*1.


(** A document none of whose enumerable properties has a name that
    [R.reduce] or the assignment of the merge reads in a way of its
    own. *)
Definition unmarked (v : json) : bool :=
  negb (bool_decide (is_Some (prop "@@transducer/reduced" (enumerable v))))
  && negb (bool_decide (is_Some (prop "__proto__" (enumerable v)))).

(** A value in which no object, at any depth or as a prototype, has a
    property named [@@functional/placeholder]: Ramda's curried functions
    read an argument that has the value [true] for it, its own or
    inherited, as a gap in their argument list. *)
Fixpoint placeholder_free (v : json) : bool :=
  match v with
  | JObj p kvs =>
      negb (bool_decide (is_Some (prop "@@functional/placeholder" kvs)))
      && forallb (λ kv, placeholder_free kv.2) kvs
      && match p with
         | Prototype v' => placeholder_free v'
         | _ => true
         end
  | JArr xs => forallb placeholder_free xs
  | _ => true
  end.

(** An accumulator of the fold of [parseObjects] that is [undefined] or
    an unmarked object of prototype [Object.prototype]. *)
Definition plain_result (acc : option json) : Prop :=
  match acc with
  | None => True
  | Some (JObj ObjectPrototype kvs) =>
      unmarked (JObj ObjectPrototype kvs) = true
  | Some _ => False
  end.

(** The pure fold [parseObjects] amounts to on documents that are
    unmarked and not [null]. *)
Definition merge_all (docs : list json) : option json :=
  foldl (λ acc d, Some (mergeDeepLeft (from_option enumerable [] acc) d))
    None docs.

(** ** Sample documents, files and errors *)

Module Sample.

Definition SyntaxError : error :=
  Error "SyntaxError" "Unexpected end of JSON input".

Definition ERR_INVALID_ARG_TYPE : error :=
  Error "TypeError" "The path argument must be of type string".

Definition EACCES (path : string) : error :=
  Error "Error" ("EACCES: permission denied, open '" +:+ path +:+ "'").

Definition ENOSPC : error :=
  Error "Error" "ENOSPC: no space left on device, write".

Definition st1 : object :=
  [("a", JStr "1"); ("c", JObj ObjectPrototype [("x", JStr "d1")])].

Definition st2 : object :=
  [("b", JStr "2"); ("c", JObj ObjectPrototype [("y", JStr "d2")])].

(** A parser that knows the texts of the two documents and rejects every
    other text. *)
Definition JSON_parse (text : string) : error + json :=
  if String.eqb text "text of st1" then inr (JObj ObjectPrototype st1)
  else if String.eqb text "text of st2" then inr (JObj ObjectPrototype st2)
  else inl SyntaxError.

(** Two style files and one file cut short; no other file exists. *)
Definition disk : gmap string entry :=
  <["st1.json" := inr "text of st1"]>
    (<["st2.json" := inr "text of st2"]>
       (<["bad.json" := inr "{"]> ∅)).

Definition start : state := State disk [].

(** An operating system that refuses to open any file for writing. *)
Definition read_only (fs : gmap string entry) (path data : string)
  : option (error * option string) :=
  Some (EACCES path, None).

(** A full device: the file is created or emptied, and nothing is
    written. *)
Definition full (fs : gmap string entry) (path data : string)
  : option (error * option string) :=
  Some (ENOSPC, Some "").

(** An operating system that writes every file. *)
Definition writable (fs : gmap string entry) (path data : string)
  : option (error * option string) :=
  None.

End Sample.

(** ** Sample documents with the names JavaScript and Ramda read in a
    way of their own *)

Module Marked.

(** [{"@@transducer/reduced": true}]. *)
Definition reduced : object := [("@@transducer/reduced", JBool true)].

(** [{"b": "2", "__proto__": {"y": "3"}}]. *)
Definition proto : object :=
  [("b", JStr "2"); ("__proto__", JObj ObjectPrototype [("y", JStr "3")])].

(** The parser of [Sample], which knows these two documents as well. *)
Definition JSON_parse (text : string) : error + json :=
  if String.eqb text "text of reduced" then inr (JObj ObjectPrototype reduced)
  else if String.eqb text "text of proto" then inr (JObj ObjectPrototype proto)
  else Sample.JSON_parse text.

(** The files of [Sample] and one file for each of the two documents. *)
Definition disk : gmap string entry :=
  <["reduced.json" := inr "text of reduced"]>
    (<["proto.json" := inr "text of proto"]> Sample.disk).

Definition start : state := State disk [].

End Marked.

(** ** A sample rendering engine and install location *)

Module SampleEngine.

(** A diagram keeps the document and the style it was made from. *)
Definition Diagram : Type := json * option json.

(** The constructor accepts objects only. *)
Definition Diagram_new (v : json) (style mjConfig mjTypeset : option json)
  : error + Diagram :=
  match v with
  | JObj _ _ => inr (v, style)
  | _ => inl (Error "TypeError" "the diagram is not an object")
  end.

Definition generate (d : Diagram) : error + option Diagram := inr (Some d).

Definition svg_svg (d : Diagram) : error + string := inr "<svg/>".

(** An engine whose rendering fails. *)
Definition RenderError : error := Error "Error" "the diagram cannot be drawn".

Definition generate_rejects (d : Diagram) : error + option Diagram :=
  inl RenderError.

Definition svg_throws (d : Diagram) : error + string := inl RenderError.

Definition path_join (dir fileName : string) : string :=
  dir +:+ "/" +:+ fileName.

Definition path_dirname (path : string) : string := "/opt/rho".

Definition execPath : string := "/opt/rho/rho".

End SampleEngine.

(** ** Evaluation of closed terms *)

Ltac by_evaluation := vm_compute; reflexivity.
Ltac by_decision := apply (bool_decide_unpack _); vm_compute; exact I.

(** * Properties *)

(** ** The option resolver *)

Section OptionResolver.

Implicit Types keys args : list string.

Lemma isOption_spec keys args :
  isOption keys args = true ↔ ∃ k, k ∈ keys ∧ k ∈ args.
Proof.
  unfold isOption, intersection.
  set (P := bool_decide _). destruct P.
  - destruct (remove_dups _) as [|x l] eqn:E; simpl; split; try done.
    + intros (k & Hk & Ha).
      assert (k ∈ remove_dups (filter (λ x, x ∈ keys) args)) as Hin
          by (apply elem_of_remove_dups, list_elem_of_filter; done).
      rewrite E in Hin. by apply not_elem_of_nil in Hin.
    + intros _. assert (x ∈ x :: l) as Hin by left.
      rewrite <- E in Hin.
      rewrite elem_of_remove_dups in Hin. rewrite list_elem_of_filter in Hin.
      destruct Hin; eauto.
  - destruct (remove_dups _) as [|x l] eqn:E; simpl; split; try done.
    + intros (k & Hk & Ha).
      assert (k ∈ remove_dups (filter (λ x, x ∈ args) keys)) as Hin
          by (apply elem_of_remove_dups, list_elem_of_filter; done).
      rewrite E in Hin. by apply not_elem_of_nil in Hin.
    + intros _. assert (x ∈ x :: l) as Hin by left.
      rewrite <- E in Hin.
      rewrite elem_of_remove_dups in Hin. rewrite list_elem_of_filter in Hin.
      destruct Hin; eauto.
Qed.

Lemma lastIndexOf_loop_spec target (xs : list string) n :
  (lastIndexOf_loop target xs n = (-1)%Z
   ∧ ∀ i, i < n → xs !! i ≠ Some target)
  ∨ (∃ p, lastIndexOf_loop target xs n = Z.of_nat p ∧ p < n
          ∧ xs !! p = Some target
          ∧ ∀ q, p < q < n → xs !! q ≠ Some target).
Proof.
  induction n as [|n IH]; simpl.
  - left. split; [done | lia].
  - case_bool_decide as Hn.
    + right. exists n. repeat split; [lia | done | lia].
    + destruct IH as [[-> IH] | (p & -> & Hp & Hx & IH)].
      * left. split; [done |]. intros i Hi.
        destruct (decide (i = n)) as [-> | ?]; [done | apply IH; lia].
      * right. exists p. repeat split; [lia | done |].
        intros q Hq. destruct (decide (q = n)) as [-> | ?]; [done | apply IH; lia].
Qed.

Lemma _max_foldl (l : list Z) (c : Z) :
  ∃ m, foldl (λ computed current,
                match computed with
                | None => Some current
                | Some c => if bool_decide (c < current)%Z then Some current
                            else computed
                end) (Some c) l = Some m
       ∧ (m = c ∨ m ∈ l) ∧ (c ≤ m)%Z ∧ ∀ x, x ∈ l → (x ≤ m)%Z.
Proof.
  revert c. induction l as [|x l IH]; intros c; simpl.
  - exists c. repeat split; [by left | lia |]. by intros x ?%not_elem_of_nil.
  - case_bool_decide.
    + destruct (IH x) as (m & -> & Hm & Hle & Hall). exists m.
      repeat split; [| lia |].
      * right. destruct Hm as [-> | ?]; [left | by right].
      * intros y [-> | ?]%elem_of_cons; [done | by apply Hall].
    + destruct (IH c) as (m & -> & Hm & Hle & Hall). exists m.
      repeat split; [| lia |].
      * destruct Hm as [-> | ?]; [by left | right; by right].
      * intros y [-> | ?]%elem_of_cons; [lia | by apply Hall].
Qed.

Lemma _max_spec (l : list Z) :
  l ≠ [] → ∃ m, _max l = Some m ∧ m ∈ l ∧ ∀ x, x ∈ l → (x ≤ m)%Z.
Proof.
  destruct l as [|c l]; [done | intros _]. unfold _max. simpl.
  destruct (_max_foldl l c) as (m & -> & Hm & Hle & Hall). exists m.
  repeat split.
  - destruct Hm as [-> | ?]; [left | by right].
  - intros y [-> | ?]%elem_of_cons; [done | by apply Hall].
Qed.

Lemma last_occurrence_exists keys args :
  (∃ k, k ∈ keys ∧ k ∈ args) → ∃ p, last_occurrence keys args p.
Proof.
  intros Hex. induction args as [|a args IH] using rev_ind.
  - destruct Hex as (k & _ & []%not_elem_of_nil).
  - destruct (decide (a ∈ keys)) as [Ha | Ha].
    + exists (length args). split.
      * exists a. split; [done |]. by rewrite lookup_app_r, Nat.sub_diag.
      * intros q k _ Hq%lookup_lt_Some. rewrite length_app in Hq. simpl in Hq. lia.
    + destruct IH as (p & (k & Hk & Hp) & Hmax).
      { destruct Hex as (k & Hk & [Hin | ->%list_elem_of_singleton]%elem_of_app);
          [eauto | done]. }
      exists p. split.
      * exists k. split; [done |]. rewrite lookup_app_l; [done |].
        by eapply lookup_lt_Some.
      * intros q k' Hk' Hq.
        destruct (decide (q < length args)) as [Hlt | Hge].
        -- rewrite lookup_app_l in Hq by done. eauto.
        -- rewrite lookup_app_r in Hq by lia.
           destruct (q - length args) as [|[|?]]; simpl in Hq; [|done..].
           congruence.
Qed.

Lemma nth_inc_nat {A} (p : nat) (xs : list A) :
  nth (inc (Z.of_nat p)) xs = xs !! S p.
Proof.
  unfold nth, inc.
  rewrite (bool_decide_eq_false_2 (Z.of_nat p + 1 < 0)%Z) by lia.
  rewrite bool_decide_eq_false_2 by lia.
  f_equal. lia.
Qed.

Lemma parseOption_last keys args p :
  last_occurrence keys args p → parseOption keys args = args !! S p.
Proof.
  intros [(k & Hk & Hp) Hmax]. unfold parseOption.
  assert (isOption keys args = true) as ->.
  { apply isOption_spec. exists k. split; [done |].
    by eapply list_elem_of_lookup_2. }
  destruct (_max_spec ((λ key, inc (lastIndexOf key args)) <$> keys))
    as (m & -> & Hm & Hall).
  { destruct keys; [by apply not_elem_of_nil in Hk | done]. }
  simpl. assert (m = inc (Z.of_nat p)) as ->; [| apply nth_inc_nat].
  apply Z.le_antisymm.
  - apply list_elem_of_fmap in Hm as (k' & -> & Hk'). unfold inc, lastIndexOf.
    destruct (lastIndexOf_loop_spec k' args (length args))
      as [[-> _] | (q & -> & _ & Hq & _)]; [lia |].
    specialize (Hmax q k' Hk' Hq). lia.
  - etrans; [| apply Hall, list_elem_of_fmap; exists k; split; [reflexivity | done]].
    unfold inc, lastIndexOf.
    destruct (lastIndexOf_loop_spec k args (length args))
      as [[_ Hno] | (q & -> & Hlt & _ & Hno)].
    + exfalso. apply (Hno p); [by eapply lookup_lt_Some | done].
    + destruct (decide (p ≤ q)); [lia |]. exfalso.
      apply (Hno p); [split; [lia | by eapply lookup_lt_Some] | done].
Qed.

Lemma parseOption_none keys args :
  (∀ k, k ∈ keys → k ∉ args) → parseOption keys args = None.
Proof.
  intros Hno. unfold parseOption.
  destruct (isOption keys args) eqn:E; [| done].
  apply isOption_spec in E as (k & Hk & Ha). by destruct (Hno k Hk).
Qed.

Lemma last_occurrence_drop keys args (p : nat) (k : string) :
  args !! p = Some k → k ∈ keys → Forall (λ x, x ∉ keys) (drop (S p) args) →
  last_occurrence keys args p.
Proof.
  intros Hp Hk Hrest. split; [by exists k |].
  intros q k' Hk' Hq. destruct (decide (q ≤ p)) as [| Hgt]; [done | exfalso].
  assert (drop (S p) args !! (q - S p) = Some k') as Hdrop.
  { rewrite lookup_drop. rewrite <- Hq. f_equal. lia. }
  by apply (Forall_lookup_1 _ _ _ _ Hrest Hdrop).
Qed.

(** C1.  [parseOption] returns the token right after the greatest index
    [p] at which any of the spellings occurs, whichever spelling that is;
    it returns [undefined] when [p] is the last index and when no
    spelling occurs.  Such a [p] exists as soon as one spelling occurs. *)
Theorem parseOption_last_flag_wins keys args :
  (∀ p, last_occurrence keys args p →
        parseOption keys args = args !! S p
        ∧ (S p = length args → parseOption keys args = None))
  ∧ ((∃ k, k ∈ keys ∧ k ∈ args) → ∃ p, last_occurrence keys args p)
  ∧ ((∀ k, k ∈ keys → k ∉ args) → parseOption keys args = None).
Proof.
  split_and!.
  - intros p Hp. rewrite (parseOption_last _ _ _ Hp). split; [done |].
    intros Hlen. apply lookup_ge_None. lia.
  - apply last_occurrence_exists.
  - apply parseOption_none.
Qed.

(** C8, as the code has it.  [parseOption] is defined exactly when the
    occurrence at the greatest index, over all spellings, has a following
    token; a defined result implies that some occurrence has a following
    token, but not the other way round. *)
Theorem parseOption_defined_iff_last_followed keys args :
  (is_Some (parseOption keys args)
   ↔ ∃ p, last_occurrence keys args p ∧ S p < length args)
  ∧ (is_Some (parseOption keys args)
     → ∃ (i : nat) (k : string),
         k ∈ keys ∧ args !! i = Some k ∧ is_Some (args !! S i)).
Proof.
  assert (is_Some (parseOption keys args)
          → ∃ p, last_occurrence keys args p ∧ S p < length args) as Hdef.
  { intros Hsome. destruct (last_occurrence_exists keys args) as [p Hp].
    - apply isOption_spec. unfold parseOption in Hsome.
      destruct (isOption keys args); [done | by destruct Hsome].
    - exists p. split; [done |]. rewrite (parseOption_last _ _ _ Hp) in Hsome.
      by apply lookup_lt_is_Some. }
  split_and!.
  - split; [done |]. intros (p & Hp & Hlt).
    rewrite (parseOption_last _ _ _ Hp). by apply lookup_lt_is_Some.
  - intros (p & [(k & Hk & Hpk) _] & Hlt)%Hdef. exists p, k.
    split_and!; [done | done | by apply lookup_lt_is_Some].
Qed.

End OptionResolver.

Section OptionsMultiple.

Implicit Types keys args : list string.

Lemma filter_seq_S key (x : string) (xs : list string) j n :
  filter (λ i, (x :: xs) !! i = Some key) (seq (S j) n)
  = S <$> filter (λ i, xs !! i = Some key) (seq j n).
Proof.
  revert j. induction n as [|n IH]; intros j; [done |].
  simpl seq. rewrite !filter_cons, IH. simpl.
  destruct (decide (xs !! j = Some key)); done.
Qed.

Lemma pickBy_occurrences key (g : nat → nat) (xs : list string) :
  (λ kv : nat * string, kv.1)
    <$> filter (λ kv, String.eqb key kv.2 = true) (imap (λ i x, (g i, x)) xs)
  = g <$> occurrencesOf key xs.
Proof.
  unfold occurrencesOf. revert g. induction xs as [|x xs IH]; intros g; [done |].
  rewrite imap_cons. simpl length. simpl seq.
  rewrite !filter_cons, filter_seq_S.
  change ((λ i x0, (g i, x0)) ∘ S) with (λ i (x0 : string), ((g ∘ S) i, x0)).
  cbn [snd lookup list_lookup].
  destruct (decide (String.eqb key x = true)) as [Heq | Hne].
  - apply String.eqb_eq in Heq as <-.
    rewrite decide_True by done.
    rewrite !fmap_cons, <- list_fmap_compose. f_equal. apply IH.
  - rewrite decide_False; [rewrite <- list_fmap_compose; apply IH |].
    intros [= ->]. by rewrite String.eqb_refl in Hne.
Qed.

Lemma allIndicesOf_occurrences key args :
  allIndicesOf key args = Z.of_nat <$> occurrencesOf key args.
Proof.
  unfold allIndicesOf, pickBy.
  rewrite <- (list_fmap_id (occurrencesOf key args)).
  rewrite <- (pickBy_occurrences key id args).
  by rewrite <- list_fmap_compose.
Qed.

Lemma compact_tokens args (occ : list nat) :
  compact ((λ idx, nth (inc idx) args) <$> (Z.of_nat <$> occ))
  = occ ≫= kept_token args.
Proof.
  induction occ as [|i occ IH]; [done |].
  rewrite !fmap_cons, bind_cons, <- IH. unfold compact at 1. simpl.
  rewrite nth_inc_nat. unfold kept_token.
  destruct (args !! S i) as [s|]; [| done].
  destruct (String.eqb_spec s ""); [by rewrite decide_True | by rewrite decide_False].
Qed.

Lemma parseOptionsMultiple_tokens keys args :
  parseOptionsMultiple keys args
  = keys ≫= λ key, occurrencesOf key args ≫= kept_token args.
Proof.
  unfold parseOptionsMultiple, flatten.
  induction keys as [|key keys IH]; [done |].
  rewrite fmap_cons, bind_cons, <- IH. simpl concat.
  rewrite fmap_app. unfold compact at 1. rewrite omap_app. f_equal.
  rewrite allIndicesOf_occurrences. apply compact_tokens.
Qed.

Lemma kept_token_filter args (occ : list nat) :
  occ ≫= kept_token args
  = filter (λ s, s ≠ "") (omap (λ i, args !! S i) occ).
Proof.
  induction occ as [|i occ IH]; [done |].
  rewrite bind_cons, IH. unfold kept_token. simpl.
  destruct (args !! S i) as [s|]; [| done].
  rewrite filter_cons. destruct (decide (s = "")).
  - by rewrite decide_False by (by intros ?).
  - by rewrite decide_True.
Qed.

Lemma filter_bind {A B} (P : B → Prop) `{∀ x, Decision (P x)}
    (f : A → list B) (l : list A) :
  filter P (l ≫= f) = l ≫= λ x, filter P (f x).
Proof.
  induction l as [|x l IH]; [done |].
  by rewrite !bind_cons, filter_app, IH.
Qed.

(** C7, as the code has it.  [parseOptionsMultiple] is one flat sequence:
    per spelling in the order given, per occurrence from left to right,
    the token at position + 1; an occurrence is dropped when no token
    follows it and also when the token that follows is the empty string.
    With the two spellings interleaved, the tokens of the first spelling
    come before those of the second. *)
Theorem parseOptionsMultiple_flattened keys args :
  parseOptionsMultiple keys args
  = filter (λ s, s ≠ "") (resolveAll_every_token keys args)
  ∧ parseOptionsMultiple ["-s"; "--style"]
      ["-s"; "st1.json"; "--style"; "st2.json"; "-s"; "st3.json"]
    = ["st1.json"; "st3.json"; "st2.json"].
Proof.
  split; [| done].
  rewrite parseOptionsMultiple_tokens. unfold resolveAll_every_token.
  rewrite filter_bind. apply list_bind_ext; [| done].
  intros key. apply kept_token_filter.
Qed.

(** C10.  No string [parseOptionsMultiple] returns is empty: an occurrence
    followed by the empty string contributes nothing, like an occurrence
    followed by no token. *)
Theorem parseOptionsMultiple_nonempty_strings keys args :
  Forall (λ s, s ≠ "") (parseOptionsMultiple keys args)
  ∧ parseOptionsMultiple keys args
    = keys ≫= λ key, occurrencesOf key args ≫= λ i,
        match args !! S i with
        | Some s => if decide (s = "") then [] else [s]
        | None => []
        end.
Proof.
  split; [| apply parseOptionsMultiple_tokens].
  rewrite parseOptionsMultiple_tokens, Forall_forall.
  intros s (key & Hs & _)%list_elem_of_bind.
  apply list_elem_of_bind in Hs as (i & Hs & _). unfold kept_token in Hs.
  destruct (args !! S i) as [t|]; [| by apply not_elem_of_nil in Hs].
  destruct (decide (t = "")); [by apply not_elem_of_nil in Hs |].
  by apply list_elem_of_singleton in Hs as ->.
Qed.

End OptionsMultiple.

(** ** The document merger *)

Section Merger.

Implicit Types (k : string) (v : json) (l kvs : object).
Implicit Types (result : prototype json * object).

#[local] Arguments String.eqb : simpl never.

Lemma eqb_proto_false k : k ≠ "__proto__" → String.eqb k "__proto__" = false.
Proof. intros Hk. by apply String.eqb_neq. Qed.

Lemma prop_None k kvs : prop k kvs = None ↔ k ∉ kvs.*1.
Proof.
  induction kvs as [|[k' v'] kvs IH]; simpl.
  - split; [intros _; apply not_elem_of_nil | done].
  - rewrite not_elem_of_cons, <- IH.
    destruct (String.eqb_spec k k') as [-> | Hne]; [| tauto].
    split; [done | by intros [[] _]].
Qed.

Lemma prop_app k l1 l2 :
  prop k (l1 ++ l2)
  = match prop k l1 with Some v => Some v | None => prop k l2 end.
Proof.
  induction l1 as [|[k' v'] l1 IH]; simpl; [done |].
  by destruct (String.eqb k k').
Qed.

Lemma prop_replace k k' v kvs :
  prop k (replace k' v kvs)
  = if String.eqb k k'
    then match prop k kvs with Some _ => Some v | None => None end
    else prop k kvs.
Proof.
  induction kvs as [|[k1 v1] kvs IH]; simpl; [by destruct (String.eqb k k') |].
  destruct (String.eqb_spec k' k1) as [-> | Hk1]; simpl.
  - by destruct (String.eqb k k1).
  - rewrite IH. destruct (String.eqb_spec k k') as [-> | Hk]; [| done].
    by rewrite (proj2 (String.eqb_neq k' k1)).
Qed.

Lemma prop_insert_index n k k' v kvs :
  prop k' kvs = None →
  prop k (insert_index n k' v kvs)
  = if String.eqb k k' then Some v else prop k kvs.
Proof.
  induction kvs as [|[k1 v1] kvs IH]; simpl; [done |].
  destruct (String.eqb_spec k' k1) as [-> | Hk1]; [done |]. intros Hnone.
  destruct (array_index k1) as [n1|]; [destruct (n1 <? n)%N |]; simpl;
    try done.
  rewrite (IH Hnone). destruct (String.eqb_spec k k') as [-> | Hk]; [| done].
  by rewrite (proj2 (String.eqb_neq k' k1)).
Qed.

Lemma prop_define k k' v kvs :
  prop k' kvs = None →
  prop k (define k' v kvs) = if String.eqb k k' then Some v else prop k kvs.
Proof.
  intros Hnone. unfold define. destruct (array_index k') as [n|].
  - by apply prop_insert_index.
  - rewrite prop_app. simpl.
    destruct (String.eqb_spec k k') as [-> | Hk]; [by rewrite Hnone |].
    by destruct (prop k kvs).
Qed.

(** The two cases of [result[k'] = v]. *)
Lemma assign_Some k' v result old :
  prop k' result.2 = Some old →
  assign k' v result = (result.1, replace k' v result.2).
Proof. unfold assign. by intros ->. Qed.

Lemma assign_None k' v result :
  prop k' result.2 = None →
  assign k' v result
  = if String.eqb k' "__proto__"
       && inherits_accessor (JObj result.1 result.2)
    then match v with
         | JObj _ _ | JArr _ => (Prototype v, result.2)
         | JNull => (NullPrototype, result.2)
         | _ => result
         end
    else (result.1, define k' v result.2).
Proof. unfold assign. by intros ->. Qed.

(** The own properties after [result[k'] = v], for every name but
    [__proto__]. *)
Lemma prop_assign k k' v result :
  k ≠ "__proto__" →
  prop k (assign k' v result).2
  = if String.eqb k k' then Some v else prop k result.2.
Proof.
  intros Hk. destruct (prop k' result.2) as [old|] eqn:Hold.
  - rewrite (assign_Some _ _ _ _ Hold). cbn [snd]. rewrite prop_replace.
    destruct (String.eqb_spec k k') as [-> | Hne]; [by rewrite Hold | done].
  - rewrite (assign_None _ _ _ Hold).
    destruct (String.eqb_spec k' "__proto__") as [-> | Hk']; cbn [andb].
    + rewrite (proj2 (String.eqb_neq k "__proto__")) by done.
      destruct (inherits_accessor (JObj result.1 result.2)).
      * by destruct v.
      * cbn [snd]. rewrite prop_define by done.
        by rewrite (proj2 (String.eqb_neq k "__proto__")).
    + by apply prop_define.
Qed.

(** An assignment to another name leaves the prototype and the property
    [__proto__] as they are. *)
Lemma assign_other k' v result :
  k' ≠ "__proto__" →
  (assign k' v result).1 = result.1
  ∧ prop "__proto__" (assign k' v result).2 = prop "__proto__" result.2.
Proof.
  intros Hk'.
  assert (String.eqb "__proto__" k' = false) as Hne
    by (apply String.eqb_neq; congruence).
  destruct (prop k' result.2) as [old|] eqn:Hold.
  - rewrite (assign_Some _ _ _ _ Hold). cbn [fst snd].
    by rewrite prop_replace, Hne.
  - rewrite (assign_None _ _ _ Hold), (eqb_proto_false _ Hk'). cbn [andb fst snd].
    by rewrite prop_define, Hne.
Qed.


Lemma first_loop_cons fn r result k v l :
  first_loop fn r result ((k, v) :: l)
  = first_loop fn r
      (assign k match own_property k r with
                | Some rVal => fn k v rVal
                | None => v
                end result) l.
Proof. done. Qed.

Lemma second_loop_cons result k v rs :
  second_loop result ((k, v) :: rs)
  = second_loop match prop k result.2 with
                | Some _ => result
                | None => assign k v result
                end rs.
Proof. done. Qed.

Lemma mergeWithKey_loops fn l r :
  mergeWithKey fn l r
  = JObj (second_loop (first_loop fn r (ObjectPrototype, []) l) (enumerable r)).1
         (second_loop (first_loop fn r (ObjectPrototype, []) l) (enumerable r)).2.
Proof. done. Qed.

Lemma prop_first_loop fn r result l k :
  NoDup l.*1 → k ≠ "__proto__" →
  prop k (first_loop fn r result l).2
  = match prop k l with
    | Some lVal =>
        Some match own_property k r with
             | Some rVal => fn k lVal rVal
             | None => lVal
             end
    | None => prop k result.2
    end.
Proof.
  intros Hnd Hk. revert result.
  induction l as [|[k1 v1] l IH]; intros result; [done |].
  apply NoDup_cons in Hnd as [Hk1 Hnd].
  rewrite first_loop_cons, (IH Hnd). simpl.
  destruct (String.eqb_spec k k1) as [-> | Hne].
  - rewrite (proj2 (prop_None k1 l)) by done.
    rewrite prop_assign by done. by rewrite String.eqb_refl.
  - rewrite prop_assign by done.
    by rewrite (proj2 (String.eqb_neq k k1)).
Qed.

Lemma prop_first_loop_other fn r result l k :
  prop k l = None → k ≠ "__proto__" →
  prop k (first_loop fn r result l).2 = prop k result.2.
Proof.
  intros Hl Hk. revert result.
  induction l as [|[k1 v1] l IH]; intros result; [done |].
  simpl in Hl. destruct (String.eqb_spec k k1) as [Heq | Hne]; [done |].
  rewrite first_loop_cons, (IH Hl).
  rewrite prop_assign by done. by rewrite (proj2 (String.eqb_neq k k1)).
Qed.

Lemma first_loop_proto fn r result l :
  prop "__proto__" l = None →
  (first_loop fn r result l).1 = result.1
  ∧ prop "__proto__" (first_loop fn r result l).2 = prop "__proto__" result.2.
Proof.
  revert result. induction l as [|[k1 v1] l IH]; intros result Hl; [done |].
  simpl in Hl.
  destruct (String.eqb_spec "__proto__" k1) as [Heq | Hne]; [done |].
  rewrite first_loop_cons.
  destruct (IH (assign k1
                  match own_property k1 r with
                  | Some rVal => fn k1 v1 rVal
                  | None => v1
                  end result) Hl) as [-> ->].
  apply assign_other. congruence.
Qed.

Lemma prop_second_loop result rs k :
  k ≠ "__proto__" →
  prop k (second_loop result rs).2
  = match prop k result.2 with Some v => Some v | None => prop k rs end.
Proof.
  intros Hk. revert result.
  induction rs as [|[k1 v1] rs IH]; intros result.
  { simpl. by destruct (prop k result.2). }
  rewrite second_loop_cons, IH. simpl. destruct (prop k1 result.2) as [old|] eqn:Hold.
  - destruct (String.eqb_spec k k1) as [-> | Hne]; [by rewrite Hold | done].
  - rewrite prop_assign by done.
    destruct (String.eqb_spec k k1) as [-> | Hne]; [by rewrite Hold | done].
Qed.

Lemma second_loop_other result rs :
  prop "__proto__" rs = None →
  (second_loop result rs).1 = result.1
  ∧ prop "__proto__" (second_loop result rs).2 = prop "__proto__" result.2.
Proof.
  revert result. induction rs as [|[k1 v1] rs IH]; intros result Hrs; [done |].
  simpl in Hrs.
  destruct (String.eqb_spec "__proto__" k1) as [Heq | Hne]; [done |].
  rewrite second_loop_cons.
  destruct (IH (match prop k1 result.2 with
                | Some _ => result
                | None => assign k1 v1 result
                end) Hrs) as [-> ->].
  destruct (prop k1 result.2); [done |]. apply assign_other. congruence.
Qed.


(** The own properties of a result have one property per name. *)
Lemma NoDup_replace k v kvs : (replace k v kvs).*1 = kvs.*1.
Proof.
  induction kvs as [|[k1 v1] kvs IH]; simpl; [done |].
  destruct (String.eqb k k1); simpl; by f_equal.
Qed.

Lemma insert_index_names n k v kvs :
  (insert_index n k v kvs).*1 ≡ₚ k :: kvs.*1.
Proof.
  induction kvs as [|[k1 v1] kvs IH]; simpl; [done |].
  destruct (array_index k1) as [n1|]; [destruct (n1 <? n)%N |]; simpl;
    try done.
  rewrite IH. apply Permutation_swap.
Qed.

Lemma define_names k v kvs : (define k v kvs).*1 ≡ₚ k :: kvs.*1.
Proof.
  unfold define. destruct (array_index k) as [n|].
  - apply insert_index_names.
  - rewrite fmap_app. simpl. by rewrite Permutation_app_comm.
Qed.

Lemma NoDup_assign k v result :
  NoDup result.2.*1 → NoDup (assign k v result).2.*1.
Proof.
  intros Hnd. destruct (prop k result.2) as [old|] eqn:Hold.
  - rewrite (assign_Some _ _ _ _ Hold). cbn [snd]. by rewrite NoDup_replace.
  - rewrite (assign_None _ _ _ Hold).
    destruct (String.eqb k "__proto__"
              && inherits_accessor (JObj result.1 result.2)).
    + by destruct v.
    + cbn [snd]. rewrite define_names. apply NoDup_cons.
      split; [by apply prop_None | done].
Qed.

Lemma NoDup_first_loop fn r result l :
  NoDup result.2.*1 → NoDup (first_loop fn r result l).2.*1.
Proof.
  revert result. induction l as [|[k1 v1] l IH]; intros result Hnd; [done |].
  rewrite first_loop_cons. by apply IH, NoDup_assign.
Qed.

Lemma NoDup_second_loop result rs :
  NoDup result.2.*1 → NoDup (second_loop result rs).2.*1.
Proof.
  revert result. induction rs as [|[k1 v1] rs IH]; intros result Hnd; [done |].
  rewrite second_loop_cons.
  apply IH. destruct (prop k1 result.2); [done | by apply NoDup_assign].
Qed.

Lemma NoDup_mergeWithKey fn l r :
  NoDup (enumerable (mergeWithKey fn l r)).*1.
Proof.
  rewrite mergeWithKey_loops. simpl.
  apply NoDup_second_loop, NoDup_first_loop. constructor.
Qed.

(** The lookup law of a merge, for every name but [__proto__]. *)
Lemma prop_mergeWithKey fn l r k :
  NoDup l.*1 → k ≠ "__proto__" →
  own_property k (mergeWithKey fn l r)
  = match prop k l with
    | Some lVal =>
        Some match own_property k r with
             | Some rVal => fn k lVal rVal
             | None => lVal
             end
    | None => prop k (enumerable r)
    end.
Proof.
  intros Hnd Hk. rewrite mergeWithKey_loops. simpl.
  rewrite prop_second_loop, prop_first_loop by done.
  by destruct (prop k l).
Qed.

(** A name that neither side has is not in the result. *)
Lemma prop_mergeWithKey_other fn l r k :
  prop k l = None → prop k (enumerable r) = None → k ≠ "__proto__" →
  own_property k (mergeWithKey fn l r) = None.
Proof.
  intros Hl Hr Hk. rewrite mergeWithKey_loops. simpl.
  rewrite prop_second_loop, prop_first_loop_other by done. simpl. by rewrite Hr.
Qed.

(** Without a property [__proto__] on either side the result is an
    object of prototype [Object.prototype] without that property. *)
Lemma mergeWithKey_plain fn l r :
  prop "__proto__" l = None → prop "__proto__" (enumerable r) = None →
  ∃ kvs, mergeWithKey fn l r = JObj ObjectPrototype kvs
         ∧ prop "__proto__" kvs = None.
Proof.
  intros Hl Hr. rewrite mergeWithKey_loops.
  destruct (first_loop_proto fn r (ObjectPrototype, []) l Hl) as [H1 H2].
  destruct (second_loop_other (first_loop fn r (ObjectPrototype, []) l)
              (enumerable r) Hr) as [H3 H4].
  rewrite H3, H1. eexists. split; [done |]. by rewrite H4, H2.
Qed.

End Merger.

(** C2 at a failing input.  The style of
    [rho -d d.json -s st1.json -s proto.json], with [st1.json] holding
    [{"a": "1", "c": {"x": "d1"}}] and [proto.json] holding
    [{"b": "2", "__proto__": {"y": "3"}}]: the merge keeps [a] and [c]
    and takes [b], but the assignment [result[k] =] hands the value of
    [__proto__] to the setter of [Object.prototype], so the result has
    no property of that name and the value is its prototype. *)
Theorem style_without_proto_property :
  _has "__proto__" (JObj ObjectPrototype Marked.proto) = true
  ∧ mergeDeepLeft Sample.st1 (JObj ObjectPrototype Marked.proto)
    = JObj (Prototype (JObj ObjectPrototype [("y", JStr "3")]))
        [("a", JStr "1");
         ("c", JObj ObjectPrototype [("x", JStr "d1")]);
         ("b", JStr "2")]
  ∧ _has "__proto__"
      (mergeDeepLeft Sample.st1 (JObj ObjectPrototype Marked.proto)) = false
  ∧ Objects.getObjects Marked.JSON_parse Sample.ERR_INVALID_ARG_TYPE
      [None] ["-s"; "--style"]
      ["-d"; "d.json"; "-s"; "st1.json"; "-s"; "proto.json"] Marked.start
    = (inr (Some (JObj (Prototype (JObj ObjectPrototype [("y", JStr "3")]))
                    [("a", JStr "1");
                     ("c", JObj ObjectPrototype [("x", JStr "d1")]);
                     ("b", JStr "2")])),
       Marked.start).
Proof. split_and!; by_evaluation. Qed.

(** ** The document loader and the merge fold *)

Section Loader.

Variable JSON_parse : string → error + json.
Variable ERR_INVALID_ARG_TYPE : error.

#[local] Abbreviation readFileSync := (Objects.readFileSync ERR_INVALID_ARG_TYPE).
#[local] Abbreviation parseObject :=
  (Objects.parseObject JSON_parse ERR_INVALID_ARG_TYPE).
#[local] Abbreviation getDefaultObject :=
  (Objects.getDefaultObject JSON_parse ERR_INVALID_ARG_TYPE).
#[local] Abbreviation getObjectOverDefault :=
  (Objects.getObjectOverDefault JSON_parse ERR_INVALID_ARG_TYPE).
#[local] Abbreviation parseObjects_step :=
  (Objects.parseObjects_step JSON_parse ERR_INVALID_ARG_TYPE).
#[local] Abbreviation parseObjects :=
  (Objects.parseObjects JSON_parse ERR_INVALID_ARG_TYPE).
#[local] Abbreviation getDefaultObjects :=
  (Objects.getDefaultObjects JSON_parse ERR_INVALID_ARG_TYPE).
#[local] Abbreviation getObjects :=
  (Objects.getObjects JSON_parse ERR_INVALID_ARG_TYPE).
#[local] Abbreviation load := (Objects.load JSON_parse ERR_INVALID_ARG_TYPE).
#[local] Abbreviation absent := (Objects.absent JSON_parse ERR_INVALID_ARG_TYPE).
#[local] Abbreviation existsSync := Objects.existsSync.
#[local] Abbreviation mergeDeepLeft_call := Objects.mergeDeepLeft_call.
#[local] Abbreviation diagnostic := Objects.diagnostic.
#[local] Abbreviation logged := Objects.logged.


Lemma logged_nil σ : logged σ [] = σ.
Proof. destruct σ. unfold logged. simpl. by rewrite app_nil_r. Qed.

Lemma logged_logged σ l1 l2 : logged (logged σ l1) l2 = logged σ (l1 ++ l2).
Proof. unfold logged. simpl. by rewrite app_assoc. Qed.

Lemma parseObject_load σ path :
  parseObject path σ
  = match load σ path with
    | inr v => (inr (Some v), σ)
    | inl err => (inr None, logged σ [diagnostic err path])
    end.
Proof.
  unfold Objects.parseObject, tryCatch, mbind, M_bind, Objects.readFileSync,
    Objects.load, lift, mret, M_ret, console_log, Objects.logged.
  destruct path as [p|]; [| done].
  destruct (files σ !! p) as [[err|text]|]; try done.
  by destruct (JSON_parse text).
Qed.

Lemma parseObjects_step_load σ obj path :
  parseObjects_step obj path σ
  = match load σ path with
    | inr v =>
        match mergeDeepLeft_call obj v with
        | inr merged => (inr (Some merged), σ)
        | inl err => (inr obj, logged σ [diagnostic err path])
        end
    | inl err => (inr obj, logged σ [diagnostic err path])
    end.
Proof.
  unfold Objects.parseObjects_step, tryCatch, mbind, M_bind,
    Objects.readFileSync, Objects.load, lift, mret, M_ret, console_log, Objects.logged.
  destruct path as [p|]; [| done].
  destruct (files σ !! p) as [[err|text]|]; try done.
  destruct (JSON_parse text) as [err|v]; [done |].
  by destruct (mergeDeepLeft_call obj v).
Qed.

Lemma existsSync_load σ path :
  existsSync path σ = (inr false, σ) → absent σ path.
Proof.
  unfold existsSync, absent, load. intros [= Hex].
  destruct path as [p|]; [| eauto].
  apply bool_decide_eq_false in Hex.
  destruct (files σ !! p) as [e|] eqn:E; [| eauto].
  destruct Hex. eauto.
Qed.


Lemma load_malformed σ (p text : string) err :
  files σ !! p = Some (inr text) → JSON_parse text = inl err →
  load σ (Some p) = inl err.
Proof. unfold load. by intros -> ->. Qed.

Lemma parseObjects_reduce σ paths :
  parseObjects paths σ = reduce parseObjects_step None paths σ.
Proof. by destruct paths. Qed.

(** One turn of the loop of [R.reduce]. *)
Lemma reduce_cons {B} (f : option json → B → M (option json)) acc x xs σ :
  reduce f acc (x :: xs) σ
  = match f acc x σ with
    | (inr acc', σ') =>
        if reduced acc' then (inr (acc' ≫= get "@@transducer/value"), σ')
        else reduce f acc' xs σ'
    | (inl err, σ') => (inl err, σ')
    end.
Proof.
  cbn [reduce]. unfold mbind at 1, M_bind at 1.
  destruct (f acc x σ) as [[err|acc'] σ']; [done |]. by destruct (reduced acc').
Qed.


(** The fold from an accumulator never throws, never changes a file and
    prints at most one line per path. *)
Lemma reduce_parseObjects_step_lines σ obj paths :
  ∃ res lines,
    reduce parseObjects_step obj paths σ = (inr res, logged σ lines)
    ∧ length lines ≤ length paths.
Proof.
  revert σ obj. induction paths as [|path paths IH]; intros σ obj.
  - exists obj, []. by rewrite logged_nil.
  - rewrite reduce_cons, parseObjects_step_load.
    assert (∀ line acc',
              ∃ res lines,
                (if reduced acc'
                 then (inr (acc' ≫= get "@@transducer/value"),
                       logged σ [line])
                 else reduce parseObjects_step acc' paths (logged σ [line]))
                = (inr res, logged σ lines)
                ∧ length lines ≤ length (path :: paths)) as Hline.
    { intros line acc'. destruct (reduced acc').
      - eexists _, [line]. split; [done | simpl; lia].
      - destruct (IH (logged σ [line]) acc') as (res & lines & -> & Hlen).
        exists res, (line :: lines).
        rewrite logged_logged. split; [done | simpl; lia]. }
    destruct (load σ path) as [err|v]; [apply Hline |].
    destruct (mergeDeepLeft_call obj v) as [err|merged]; [apply Hline |].
    destruct (reduced (Some merged)).
    + eexists _, []. rewrite logged_nil. split; [done | simpl; lia].
    + destruct (IH σ (Some merged)) as (res & lines & -> & Hlen).
      exists res, lines. split; [done | simpl; lia].
Qed.

Lemma filterM_existsSync_length σ (paths : list (option string)) :
  ∃ existing,
    filterM existsSync paths σ = (inr existing, σ)
    ∧ length existing ≤ length paths.
Proof.
  induction paths as [|path paths (existing & IH & Hlen)]; [by exists [] |].
  cbn [filterM]. unfold mbind, M_bind.
  unfold Objects.existsSync at 1. rewrite IH.
  destruct (match path with Some p => _ | None => _ end).
  - exists (path :: existing). split; [done | simpl; lia].
  - exists existing. split; [done | simpl; lia].
Qed.

(** Default paths none of which names a file are all filtered out. *)
Lemma getDefaultObjects_missing σ defaultValues :
  Forall (λ d, ∀ q : string, d = Some q → files σ !! q = None) defaultValues →
  getDefaultObjects defaultValues σ = (inr None, σ).
Proof.
  intros Hall. unfold Objects.getDefaultObjects, mbind, M_bind.
  assert (filterM existsSync defaultValues σ = (inr [], σ)) as ->; [| done].
  induction Hall as [|d ds Hd _ IH]; [done |].
  cbn [filterM]. unfold mbind, M_bind. unfold Objects.existsSync at 1.
  rewrite IH. destruct d as [q|]; [| done].
  rewrite (Hd q eq_refl). rewrite bool_decide_eq_false_2; [done |].
  by intros [? [=]].
Qed.


Lemma get_plain k kvs : get k (JObj ObjectPrototype kvs) = prop k kvs.
Proof. simpl. by destruct (prop k kvs). Qed.


(** C3 at a failing input.  The loop of [R.reduce] reads the accumulator
    after every step: with a truthy [acc['@@transducer/reduced']] it
    stops and answers [acc['@@transducer/value']].  With [bad.json] cut
    short and [reduced.json] holding [{"@@transducer/reduced": true}],
    [parseObjects(['bad.json', 'reduced.json'])] prints the line about
    the first file and returns [undefined], not the document of the
    second file. *)
Theorem parseObjects_undefined_for_reduced_document :
  Objects.load Marked.JSON_parse Sample.ERR_INVALID_ARG_TYPE Marked.start
    (Some "bad.json") = inl Sample.SyntaxError
  ∧ Objects.load Marked.JSON_parse Sample.ERR_INVALID_ARG_TYPE Marked.start
      (Some "reduced.json") = inr (JObj ObjectPrototype Marked.reduced)
  ∧ Objects.parseObjects Marked.JSON_parse Sample.ERR_INVALID_ARG_TYPE
      [Some "bad.json"; Some "reduced.json"] Marked.start
    = (inr None,
       Objects.logged Marked.start
         ["SyntaxError: Unexpected end of JSON input. <File: 'bad.json'>"])
  ∧ Objects.parseObjects Sample.JSON_parse Sample.ERR_INVALID_ARG_TYPE
      [Some "bad.json"; Some "st2.json"] Sample.start
    = (inr (Some (JObj ObjectPrototype Sample.st2)),
       Objects.logged Sample.start
         ["SyntaxError: Unexpected end of JSON input. <File: 'bad.json'>"]).
Proof. split_and!; by_evaluation. Qed.



End Loader.

(** C6 at a failing input.  For
    [rho -d d.json -s reduced.json -s st1.json], with [reduced.json]
    holding [{"@@transducer/reduced": true}], the loop of [R.reduce]
    stops at the first explicit file: [parseObjects] answers
    [undefined] for the explicit paths although both files yield a
    document.  So without a default file [getObjects] returns
    [undefined], and with the default file [st2.json] it returns the
    document of that file alone. *)
Theorem getObjects_undefined_despite_document :
  parseOptionsMultiple ["-s"; "--style"]
    ["-d"; "d.json"; "-s"; "reduced.json"; "-s"; "st1.json"]
  = ["reduced.json"; "st1.json"]
  ∧ Objects.loads Marked.JSON_parse Sample.ERR_INVALID_ARG_TYPE Marked.start
      (Some "reduced.json") = true
  ∧ Objects.loads Marked.JSON_parse Sample.ERR_INVALID_ARG_TYPE Marked.start
      (Some "st1.json") = true
  ∧ Objects.parseObjects Marked.JSON_parse Sample.ERR_INVALID_ARG_TYPE
      [Some "reduced.json"; Some "st1.json"] Marked.start
    = (inr None, Marked.start)
  ∧ Objects.getObjects Marked.JSON_parse Sample.ERR_INVALID_ARG_TYPE
      [None] ["-s"; "--style"]
      ["-d"; "d.json"; "-s"; "reduced.json"; "-s"; "st1.json"] Marked.start
    = (inr None, Marked.start)
  ∧ Objects.getObjects Marked.JSON_parse Sample.ERR_INVALID_ARG_TYPE
      [Some "st2.json"] ["-s"; "--style"]
      ["-d"; "d.json"; "-s"; "reduced.json"; "-s"; "st1.json"] Marked.start
    = (inr (Some (JObj ObjectPrototype Sample.st2)), Marked.start).
Proof. split_and!; by_evaluation. Qed.

(** ** Delivering the generated diagram *)

Section Delivery.

Variable ERR_INVALID_ARG_TYPE : error.
Variable write_error :
  gmap string entry → string → string → option (error * option string).
Variable Diagram : Type.
Variable svg_svg : Diagram → error + string.

#[local] Abbreviation writeFileSync :=
  (Commands.writeFileSync ERR_INVALID_ARG_TYPE write_error).
#[local] Abbreviation output :=
  (Commands.output ERR_INVALID_ARG_TYPE write_error Diagram svg_svg).
#[local] Abbreviation diagram_then :=
  (Commands.diagram_then ERR_INVALID_ARG_TYPE write_error Diagram svg_svg).

(** What [output] does, case by case. *)
Lemma output_run σ args d :
  output args d σ
  = match svg_svg d with
    | inr svg =>
        match parseOption ["-o"; "--output"] args with
        | Some p =>
            match write_error (files σ) p svg with
            | Some (err, Some rest) =>
                (inr (), State (Commands.store p rest (files σ))
                           (console σ ++ [Commands.not_generated err]))
            | Some (err, None) =>
                (inr (), Objects.logged σ [Commands.not_generated err])
            | None =>
                (inr (), State (Commands.store p svg (files σ)) (console σ))
            end
        | None =>
            (inr (), Objects.logged σ
                       [Commands.not_generated ERR_INVALID_ARG_TYPE])
        end
    | inl err => (inr (), Objects.logged σ [Commands.not_generated err])
    end.
Proof.
  unfold Commands.output, tryCatch, mbind, M_bind, lift,
    Commands.writeFileSync.
  destruct (svg_svg d) as [err|svg]; [done |].
  destruct (parseOption _ args) as [p|]; [| done].
  by destruct (write_error (files σ) p svg) as [[err [rest|]]|].
Qed.

(** C9, as the code has it.  When an output spelling is among the
    arguments, the delivery is the write alone, with or without [-w]:
    after a failed write the console holds the diagnostic line of the
    write and nothing more, so the SVG text is not printed; after a
    successful write the console is as before.  The SVG text is printed
    only when no output spelling is among the arguments and a write
    spelling is. *)
Theorem diagram_then_write_only_without_output σ args d svg :
  svg_svg d = inr svg →
  (isOption ["-o"; "--output"] args = true →
   (diagram_then args d σ).1 = inr ()
   ∧ console (diagram_then args d σ).2
     = console σ
       ++ match parseOption ["-o"; "--output"] args with
          | Some p =>
              match write_error (files σ) p svg with
              | Some (err, _) => [Commands.not_generated err]
              | None => []
              end
          | None => [Commands.not_generated ERR_INVALID_ARG_TYPE]
          end)
  ∧ (isOption ["-o"; "--output"] args = false →
     isOption ["-w"; "--write"] args = true →
     diagram_then args d σ = (inr (), Objects.logged σ [svg]))
  ∧ (isOption ["-o"; "--output"] args = false →
     isOption ["-w"; "--write"] args = false →
     diagram_then args d σ = (inr (), σ)).
Proof.
  intros Hsvg. unfold Commands.diagram_then. split_and!.
  - intros ->. rewrite output_run, Hsvg.
    destruct (parseOption _ args) as [p|]; [| done].
    destruct (write_error (files σ) p svg) as [[err [rest|]]|]; simpl;
      by rewrite ?app_nil_r.
  - intros -> ->. unfold mbind, M_bind, lift. by rewrite Hsvg.
  - by intros -> ->.
Qed.

End Delivery.

(** ** Worked instances *)

Lemma parseOption_last_flag_wins_witness :
  last_occurrence ["-d"; "--diagram"] ["-d"; "a.json"; "--diagram"; "b.json"] 2
  ∧ parseOption ["-d"; "--diagram"] ["-d"; "a.json"; "--diagram"; "b.json"]
    = Some "b.json"
  ∧ last_occurrence ["-d"; "--diagram"] ["-d"] 0
  ∧ parseOption ["-d"; "--diagram"] ["-d"] = None
  ∧ parseOption ["-d"; "--diagram"] ["-o"; "out.svg"] = None.
Proof.
  assert (last_occurrence ["-d"; "--diagram"]
            ["-d"; "a.json"; "--diagram"; "b.json"] 2) as Hlong.
  { apply (last_occurrence_drop _ _ 2 "--diagram");
      [reflexivity | by_decision | by_decision]. }
  assert (last_occurrence ["-d"; "--diagram"] ["-d"] 0) as Hshort.
  { apply (last_occurrence_drop _ _ 0 "-d");
      [reflexivity | by_decision | by_decision]. }
  split_and!; [exact Hlong | | exact Hshort | |].
  - exact (proj1 (proj1 (parseOption_last_flag_wins _ _) 2 Hlong)).
  - exact (proj2 (proj1 (parseOption_last_flag_wins _ _) 0 Hshort) eq_refl).
  - apply (proj2 (proj2 (parseOption_last_flag_wins _ _))).
    apply Forall_forall. by_decision.
Defined.

Lemma parseOption_defined_iff_last_followed_witness :
  last_occurrence ["-d"] ["-d"; "a.json"] 0
  ∧ is_Some (parseOption ["-d"] ["-d"; "a.json"])
  ∧ ∃ (i : nat) (k : string),
      k ∈ ["-d"] ∧ ["-d"; "a.json"] !! i = Some k
      ∧ is_Some (["-d"; "a.json"] !! S i).
Proof.
  assert (last_occurrence ["-d"] ["-d"; "a.json"] 0) as Hlast.
  { apply (last_occurrence_drop _ _ 0 "-d");
      [reflexivity | by_decision | by_decision]. }
  assert (is_Some (parseOption ["-d"] ["-d"; "a.json"])) as Hdef.
  { apply (proj1 (parseOption_defined_iff_last_followed _ _)).
    exists 0. split; [exact Hlast | simpl; lia]. }
  split_and!; [exact Hlast | exact Hdef |].
  exact (proj2 (parseOption_defined_iff_last_followed _ _) Hdef).
Defined.

(** C8 as stated fails: an earlier occurrence with a following token does
    not define the result when the last occurrence ends the arguments. *)
Lemma parseOption_undefined_despite_followed_occurrence :
  (∃ (i : nat) (k : string),
     k ∈ ["-d"] ∧ ["-d"; "a.json"; "-d"] !! i = Some k
     ∧ is_Some (["-d"; "a.json"; "-d"] !! S i))
  ∧ parseOption ["-d"] ["-d"; "a.json"; "-d"] = None.
Proof.
  split; [| reflexivity].
  exists 0, "-d". split_and!; [by_decision | reflexivity | by eexists].
Qed.

(** C7 at the input of its example: interleaved spellings are not read
    in the order of the arguments, and a following empty string is not
    collected. *)
Lemma parseOptionsMultiple_not_every_token_in_order :
  parseOptionsMultiple ["-s"; "--style"]
    ["-s"; "st1.json"; "--style"; "st2.json"; "-s"; "st3.json"]
  = ["st1.json"; "st3.json"; "st2.json"]
  ∧ resolveAll_every_token ["-s"; "--style"] ["-s"; ""] = [""]
  ∧ parseOptionsMultiple ["-s"; "--style"] ["-s"; ""] = [].
Proof. split_and!; reflexivity. Qed.




Lemma diagram_then_write_only_without_output_witness :
  isOption ["-o"; "--output"] ["-d"; "d.json"; "-o"; "out.svg"; "-w"] = true
  ∧ isOption ["-w"; "--write"] ["-d"; "d.json"; "-o"; "out.svg"; "-w"] = true
  ∧ console
      (Commands.diagram_then Sample.ERR_INVALID_ARG_TYPE Sample.read_only
         SampleEngine.Diagram SampleEngine.svg_svg
         ["-d"; "d.json"; "-o"; "out.svg"; "-w"]
         (JObj ObjectPrototype Sample.st1, None) Sample.start).2
    = ["Error: EACCES: permission denied, open 'out.svg'. Diagram was not generated."]
  ∧ Commands.diagram_then Sample.ERR_INVALID_ARG_TYPE Sample.read_only
      SampleEngine.Diagram SampleEngine.svg_svg
      ["-d"; "d.json"; "-w"] (JObj ObjectPrototype Sample.st1, None)
      Sample.start
    = (inr (), Objects.logged Sample.start ["<svg/>"]).
Proof.
  split_and!; [reflexivity | reflexivity | |].
  - exact (proj2 (proj1 (diagram_then_write_only_without_output
                           Sample.ERR_INVALID_ARG_TYPE Sample.read_only
                           SampleEngine.Diagram SampleEngine.svg_svg
                           Sample.start
                           ["-d"; "d.json"; "-o"; "out.svg"; "-w"]
                           (JObj ObjectPrototype Sample.st1, None) "<svg/>"
                           eq_refl) eq_refl)).
  - exact (proj1 (proj2 (diagram_then_write_only_without_output
                           Sample.ERR_INVALID_ARG_TYPE Sample.read_only
                           SampleEngine.Diagram SampleEngine.svg_svg
                           Sample.start ["-d"; "d.json"; "-w"]
                           (JObj ObjectPrototype Sample.st1, None) "<svg/>"
                           eq_refl))
             eq_refl eq_refl).
Defined.

(** C9 at a failing input: with an output spelling and [-w], the console
    holds the diagnostic line of a failed write, or nothing after a
    successful one, and not the SVG text. *)
Lemma svg_not_printed_with_output :
  isOption ["-w"; "--write"] ["-d"; "d.json"; "-o"; "out.svg"; "-w"] = true
  ∧ console
      (Commands.diagram_then Sample.ERR_INVALID_ARG_TYPE Sample.read_only
         SampleEngine.Diagram SampleEngine.svg_svg
         ["-d"; "d.json"; "-o"; "out.svg"; "-w"]
         (JObj ObjectPrototype Sample.st1, None) Sample.start).2
    = ["Error: EACCES: permission denied, open 'out.svg'. Diagram was not generated."]
  ∧ Commands.diagram_then Sample.ERR_INVALID_ARG_TYPE Sample.full
      SampleEngine.Diagram SampleEngine.svg_svg
      ["-d"; "d.json"; "-o"; "out.svg"; "-w"]
      (JObj ObjectPrototype Sample.st1, None) Sample.start
    = (inr (),
       State (<["out.svg" := inr ""]> Sample.disk)
         ["Error: ENOSPC: no space left on device, write. Diagram was not generated."])
  ∧ Commands.diagram_then Sample.ERR_INVALID_ARG_TYPE Sample.writable
      SampleEngine.Diagram SampleEngine.svg_svg
      ["-d"; "d.json"; "-o"; "out.svg"; "-w"]
      (JObj ObjectPrototype Sample.st1, None) Sample.start
    = (inr (), State (<["out.svg" := inr "<svg/>"]> Sample.disk) []).
Proof. split_and!; by_evaluation. Qed.

Example getObjects_sample :
  Objects.getObjects Sample.JSON_parse Sample.ERR_INVALID_ARG_TYPE
    [Some "st2.json"; None] ["-s"; "--style"]
    ["-s"; "st1.json"; "-s"; "nope.json"] Sample.start
  = (inr (Some (JObj ObjectPrototype
                  [("a", JStr "1");
                   ("c", JObj ObjectPrototype
                           [("x", JStr "d1"); ("y", JStr "d2")]);
                   ("b", JStr "2")])),
     Objects.logged Sample.start
       ["Error: ENOENT: no such file or directory, open 'nope.json'. <File: 'nope.json'>"]).
Proof. by_evaluation. Qed.

(** * Further properties *)

(** ** The argument scanner and the option resolver *)

Section ScannerProperties.

Implicit Types keys args : list string.

Lemma occurrencesOf_spec key args (i : nat) :
  i ∈ occurrencesOf key args ↔ args !! i = Some key.
Proof.
  unfold occurrencesOf. rewrite list_elem_of_filter, elem_of_seq.
  split; [by intros [? _] |]. intros Hi. split; [done |].
  apply lookup_lt_Some in Hi. lia.
Qed.

Lemma StronglySorted_seq j n : StronglySorted lt (seq j n).
Proof.
  revert j. induction n as [|n IH]; intros j; simpl; constructor; [apply IH |].
  apply Forall_forall. intros i Hi%elem_of_seq. lia.
Qed.

Lemma StronglySorted_filter {A} (R : relation A) (P : A → Prop)
    `{∀ x, Decision (P x)} (l : list A) :
  StronglySorted R l → StronglySorted R (filter P l).
Proof.
  induction 1 as [|x l Hl IH Hx]; [constructor |].
  rewrite filter_cons. destruct (decide (P x)); [| done].
  constructor; [done |]. apply Forall_forall.
  intros y [_ Hy]%list_elem_of_filter. by eapply Forall_forall in Hx.
Qed.

Lemma last_of_sorted (l : list nat) (x : nat) :
  StronglySorted lt l → x ∈ l → (∀ y, y ∈ l → y ≤ x) → last l = Some x.
Proof.
  intros Hsorted Hx Hmax. destruct (last l) as [y|] eqn:Hlast.
  - pose proof (last_Some_elem_of _ _ Hlast) as Hy.
    apply last_Some in Hlast as [l' ->].
    apply elem_of_app in Hx as [Hx | ->%list_elem_of_singleton]; [| done].
    apply StronglySorted_app in Hsorted as (Hlt & _ & _).
    specialize (Hlt x y Hx ltac:(by apply list_elem_of_singleton)).
    specialize (Hmax y Hy). lia.
  - apply last_None in Hlast as ->. by apply not_elem_of_nil in Hx.
Qed.

(** X1.  [isOption] is [true] exactly when some key is among the
    arguments, wherever it stands; the two lists can be swapped. *)
Theorem isOption_common_member keys args :
  (isOption keys args = true ↔ ∃ k, k ∈ keys ∧ k ∈ args)
  ∧ isOption keys args = isOption args keys.
Proof.
  split; [apply isOption_spec |].
  apply Bool.eq_true_iff_eq. rewrite !isOption_spec.
  split; intros (k & Hk & Ha); by exists k.
Qed.

(** X2.  [allIndicesOf] lists exactly the positions that hold the key,
    each once, in increasing order. *)
Theorem allIndicesOf_positions key args :
  (∀ i : nat, Z.of_nat i ∈ allIndicesOf key args ↔ args !! i = Some key)
  ∧ (∀ z, z ∈ allIndicesOf key args → (0 ≤ z < Z.of_nat (length args))%Z)
  ∧ StronglySorted Z.lt (allIndicesOf key args).
Proof.
  rewrite allIndicesOf_occurrences. split_and!.
  - intros i. rewrite list_elem_of_fmap. rewrite <- occurrencesOf_spec.
    split; [| by exists i].
    by intros (j & ->%(inj Z.of_nat) & Hj).
  - intros z (i & -> & Hi%occurrencesOf_spec%lookup_lt_Some)%list_elem_of_fmap.
    lia.
  - apply (StronglySorted_fmap _ lt); [lia |].
    apply StronglySorted_filter, StronglySorted_seq.
Qed.

(** X3.  [R.lastIndexOf] answers the last position [allIndicesOf] lists,
    and [-1] when it lists none. *)
Theorem lastIndexOf_last_of_allIndicesOf key args :
  lastIndexOf key args = default (-1)%Z (last (allIndicesOf key args)).
Proof.
  rewrite allIndicesOf_occurrences, fmap_last. unfold lastIndexOf.
  destruct (lastIndexOf_loop_spec key args (length args))
    as [[-> Hno] | (p & -> & Hlt & Hp & Hlast)].
  - assert (occurrencesOf key args = []) as ->; [| done].
    apply elem_of_nil_inv. intros i Hi%occurrencesOf_spec.
    apply (Hno i); [by eapply lookup_lt_Some | done].
  - rewrite (last_of_sorted _ p); [done | | by apply occurrencesOf_spec |].
    + apply StronglySorted_filter, StronglySorted_seq.
    + intros q Hq%occurrencesOf_spec. destruct (decide (q ≤ p)); [done |].
      exfalso. apply (Hlast q); [| done].
      split; [lia | by eapply lookup_lt_Some].
Qed.

Lemma last_occurrence_prefix keys (pre args : list string) p :
  last_occurrence keys args p →
  last_occurrence keys (pre ++ args) (length pre + p).
Proof.
  intros [(k & Hk & Hp) Hmax]. split.
  - exists k. split; [done |]. rewrite lookup_app_r by lia.
    rewrite <- Hp. f_equal. lia.
  - intros q k' Hk' Hq. destruct (decide (q < length pre)); [lia |].
    rewrite lookup_app_r in Hq by lia.
    specialize (Hmax _ _ Hk' Hq). lia.
Qed.

(** X4.  Tokens in front of the arguments do not change [parseOption]
    once a key occurs behind them: what is said last decides. *)
Theorem parseOption_ignores_prefix keys (pre args : list string) :
  (∃ k, k ∈ keys ∧ k ∈ args) →
  parseOption keys (pre ++ args) = parseOption keys args.
Proof.
  intros [p Hp]%last_occurrence_exists.
  rewrite (parseOption_last _ _ _ Hp).
  rewrite (parseOption_last _ _ _ (last_occurrence_prefix _ pre _ _ Hp)).
  rewrite lookup_app_r by lia. f_equal. lia.
Qed.

(** X5.  [parseOption] depends on the keys as a set: their order and
    repetitions do not matter. *)
Theorem parseOption_keys_as_set keys keys' args :
  (∀ k, k ∈ keys ↔ k ∈ keys') →
  parseOption keys args = parseOption keys' args.
Proof.
  intros Hset. destruct (isOption keys args) eqn:Hopt.
  - apply isOption_spec in Hopt. apply last_occurrence_exists in Hopt as [p Hp].
    rewrite (parseOption_last _ _ _ Hp). symmetry. apply parseOption_last.
    destruct Hp as [(k & Hk & Hp) Hmax]. split.
    + exists k. split; [by apply Hset | done].
    + intros q k' Hk'%Hset. by apply Hmax.
  - unfold parseOption. rewrite Hopt.
    assert (isOption keys' args = false) as ->; [| done].
    apply not_true_iff_false. rewrite isOption_spec.
    apply not_true_iff_false in Hopt. rewrite isOption_spec in Hopt.
    intros (k & Hk%Hset & Ha). eauto.
Qed.

(** X6.  A string is among the results of [parseOptionsMultiple] exactly
    when it is not empty and directly follows an occurrence of a key. *)
Theorem parseOptionsMultiple_membership keys args (s : string) :
  s ∈ parseOptionsMultiple keys args
  ↔ s ≠ "" ∧ ∃ (i : nat) (k : string),
      k ∈ keys ∧ args !! i = Some k ∧ args !! S i = Some s.
Proof.
  rewrite parseOptionsMultiple_tokens, list_elem_of_bind. split.
  - intros (k & (i & Hs & Hi%occurrencesOf_spec)%list_elem_of_bind & Hk).
    unfold kept_token in Hs.
    destruct (args !! S i) as [t|] eqn:Ht; [| by apply not_elem_of_nil in Hs].
    destruct (decide (t = "")); [by apply not_elem_of_nil in Hs |].
    apply list_elem_of_singleton in Hs as ->. split; [done |].
    by exists i, k.
  - intros (Hne & i & k & Hk & Hi & Hs). exists k. split; [| done].
    apply list_elem_of_bind. exists i. split; [| by apply occurrencesOf_spec].
    unfold kept_token. rewrite Hs, decide_False by done.
    by apply list_elem_of_singleton.
Qed.

(** X7.  What [parseOption] returns, unless it is the empty string, is one
    of the results of [parseOptionsMultiple] for the same keys. *)
Theorem parseOption_among_parseOptionsMultiple keys args (s : string) :
  parseOption keys args = Some s → s ≠ "" →
  s ∈ parseOptionsMultiple keys args.
Proof.
  intros Hs Hne.
  destruct (last_occurrence_exists keys args) as [p Hp].
  { apply isOption_spec. unfold parseOption in Hs.
    by destruct (isOption keys args). }
  rewrite (parseOption_last _ _ _ Hp) in Hs.
  destruct Hp as [(k & Hk & Hp) _].
  rewrite parseOptionsMultiple_tokens, list_elem_of_bind. exists k.
  split; [| done]. apply list_elem_of_bind. exists p.
  split; [| by apply occurrencesOf_spec].
  unfold kept_token. rewrite Hs, decide_False by done.
  by apply list_elem_of_singleton.
Qed.

(** X8.  [parseOptionsMultiple] treats the keys one after the other: for
    keys put together it returns the results of the first keys followed by
    those of the others, so that a key given twice doubles its results. *)
Theorem parseOptionsMultiple_keys_app keys1 keys2 args :
  parseOptionsMultiple (keys1 ++ keys2) args
  = parseOptionsMultiple keys1 args ++ parseOptionsMultiple keys2 args.
Proof. by rewrite !parseOptionsMultiple_tokens, bind_app. Qed.

End ScannerProperties.

(** ** The deep merge *)

Section MergeProperties.

Implicit Types (k : string) (v : json) (l d kvs : object).

#[local] Arguments String.eqb : simpl never.

(** A name that comes after every name of a list goes to its end. *)
Lemma insert_index_end n k v kvs :
  array_index k = Some n → Forall (λ k', key_before k' k) kvs.*1 →
  insert_index n k v kvs = kvs ++ [(k, v)].
Proof.
  intros Hk. induction kvs as [|[k1 v1] kvs IH]; [done |].
  rewrite fmap_cons, Forall_cons. intros [Hbefore Hall]. simpl.
  unfold key_before in Hbefore. simpl in Hbefore. rewrite Hk in Hbefore.
  destruct (array_index k1) as [n1|]; [| done].
  rewrite (proj2 (N.ltb_lt n1 n)) by done. by rewrite (IH Hall).
Qed.

Lemma define_end k v kvs :
  Forall (λ k', key_before k' k) kvs.*1 → define k v kvs = kvs ++ [(k, v)].
Proof.
  intros Hall. unfold define.
  destruct (array_index k) as [n|] eqn:Hk; [by apply insert_index_end | done].
Qed.

Lemma well_formed_middle pre k v d :
  well_formed (pre ++ (k, v) :: d) →
  prop k pre = None ∧ Forall (λ k', key_before k' k) pre.*1.
Proof.
  unfold well_formed. rewrite fmap_app, fmap_cons. intros [Hnd Hsorted]. split.
  - apply prop_None. apply NoDup_app in Hnd as (_ & Hdisjoint & _).
    intros Hin. apply (Hdisjoint k Hin). simpl. left.
  - apply Forall_forall. intros k' Hin.
    apply (StronglySorted_app_1_elem_of _ _ _ _ _ Hsorted Hin). simpl. left.
Qed.

(** Assigning the properties of a well-formed list in turn rebuilds the
    list. *)
Lemma assign_copies pre k v d :
  well_formed (pre ++ (k, v) :: d) → prop "__proto__" (pre ++ (k, v) :: d) = None →
  prop k pre = None
  ∧ assign k v (ObjectPrototype, pre) = (ObjectPrototype, pre ++ [(k, v)]).
Proof.
  intros Hwf Hproto. destruct (well_formed_middle _ _ _ _ Hwf) as [Hnone Hall].
  split; [done |]. rewrite assign_None by done.
  assert (k ≠ "__proto__") as Hk.
  { intros ->. rewrite prop_app in Hproto.
    destruct (prop "__proto__" pre); [done |].
    by simpl in Hproto. }
  rewrite (proj2 (String.eqb_neq k "__proto__")) by done.
  cbn [andb fst snd]. by rewrite define_end.
Qed.

Lemma second_loop_copies pre d :
  well_formed (pre ++ d) → prop "__proto__" (pre ++ d) = None →
  second_loop (ObjectPrototype, pre) d = (ObjectPrototype, pre ++ d).
Proof.
  revert pre. induction d as [|[k v] d IH]; intros pre Hwf Hproto.
  { by rewrite app_nil_r. }
  destruct (assign_copies _ _ _ _ Hwf Hproto) as [Hnone Hassign].
  rewrite second_loop_cons. cbn [snd]. rewrite Hnone, Hassign.
  rewrite (cons_middle (k, v) pre d), app_assoc in Hwf, Hproto |- *.
  by apply IH.
Qed.

Lemma first_loop_copies fn p pre d :
  well_formed (pre ++ d) → prop "__proto__" (pre ++ d) = None →
  first_loop fn (JObj p []) (ObjectPrototype, pre) d
  = (ObjectPrototype, pre ++ d).
Proof.
  revert pre. induction d as [|[k v] d IH]; intros pre Hwf Hproto.
  { by rewrite app_nil_r. }
  destruct (assign_copies _ _ _ _ Hwf Hproto) as [Hnone Hassign].
  rewrite first_loop_cons. cbn [own_property prop]. rewrite Hassign.
  rewrite (cons_middle (k, v) pre d), app_assoc in Hwf, Hproto |- *.
  by apply IH.
Qed.

(** X12.  Merging with nothing copies: for an object whose properties
    are well formed and do not include [__proto__], the merge of
    [undefined] over it, and the merge of it over the empty object, are
    both the object itself with the prototype [Object.prototype]. *)
Theorem mergeDeepLeft_empty p d :
  well_formed d → prop "__proto__" d = None →
  placeholder_free (JObj p d) = true →
  Objects.mergeDeepLeft_call None (JObj p d) = inr (JObj ObjectPrototype d)
  ∧ Objects.mergeDeepLeft_call (Some (JObj p d)) (JObj ObjectPrototype [])
    = inr (JObj ObjectPrototype d).
Proof.
  intros Hwf Hproto _. unfold Objects.mergeDeepLeft_call.
  cbn [is_null json_is_null andb from_option enumerable].
  unfold mergeDeepLeft, mergeDeepWithKey. rewrite !mergeWithKey_loops. split.
  - cbn [first_loop foldl enumerable]. by rewrite (second_loop_copies [] d).
  - by rewrite first_loop_copies.
Qed.



End MergeProperties.

(** ** The loaders and the merge fold *)

Section LoaderProperties.

Variable JSON_parse : string → error + json.
Variable ERR_INVALID_ARG_TYPE : error.

#[local] Abbreviation parseObject :=
  (Objects.parseObject JSON_parse ERR_INVALID_ARG_TYPE).
#[local] Abbreviation getObject :=
  (Objects.getObject JSON_parse ERR_INVALID_ARG_TYPE).
#[local] Abbreviation getDefaultObject :=
  (Objects.getDefaultObject JSON_parse ERR_INVALID_ARG_TYPE).
#[local] Abbreviation getObjectOverDefault :=
  (Objects.getObjectOverDefault JSON_parse ERR_INVALID_ARG_TYPE).
#[local] Abbreviation parseObjects_step :=
  (Objects.parseObjects_step JSON_parse ERR_INVALID_ARG_TYPE).
#[local] Abbreviation parseObjects :=
  (Objects.parseObjects JSON_parse ERR_INVALID_ARG_TYPE).
#[local] Abbreviation getDefaultObjects :=
  (Objects.getDefaultObjects JSON_parse ERR_INVALID_ARG_TYPE).
#[local] Abbreviation getObjects :=
  (Objects.getObjects JSON_parse ERR_INVALID_ARG_TYPE).
#[local] Abbreviation load := (Objects.load JSON_parse ERR_INVALID_ARG_TYPE).
#[local] Abbreviation loads := (Objects.loads JSON_parse ERR_INVALID_ARG_TYPE).
#[local] Abbreviation absent := (Objects.absent JSON_parse ERR_INVALID_ARG_TYPE).
#[local] Abbreviation diagnostic := Objects.diagnostic.
#[local] Abbreviation logged := Objects.logged.


(** X13.  [parseObject] never throws and never changes a file.  When the
    file yields a document it returns that document and prints nothing;
    otherwise it returns [undefined] and prints one line that names the
    error and the path.  So a file that holds a JSON text gives the
    value [JSON.parse] makes of the text, and a file whose text is not
    JSON gives the line with the name and message of the parser's
    error. *)
Theorem parseObject_catches_everything σ path :
  ∃ res lines,
    parseObject path σ = (inr res, logged σ lines)
    ∧ (∀ v, load σ path = inr v → res = Some v ∧ lines = [])
    ∧ (∀ err, load σ path = inl err
              → res = None ∧ lines = [diagnostic err path])
    ∧ (res = None ↔ absent σ path)
    ∧ (lines = [] ↔ ¬ absent σ path)
    ∧ length lines ≤ 1
    ∧ (∀ (p text : string) v,
         path = Some p → files σ !! p = Some (inr text) →
         JSON_parse text = inr v →
         res = Some v ∧ lines = [])
    ∧ (∀ (p text : string) err,
         path = Some p → files σ !! p = Some (inr text) →
         JSON_parse text = inl err →
         res = None
         ∧ lines = [name err +:+ ": " +:+ message err
                    +:+ ". <File: '" +:+ p +:+ "'>"]).
Proof.
  rewrite parseObject_load. unfold Objects.absent.
  destruct (load σ path) as [err|v] eqn:Hload.
  - exists None, [diagnostic err path].
    split_and!; [done | done | by intros ? [= <-] | | | simpl; lia | |].
    + split; [by exists err | done].
    + split; [done |]. intros []. by exists err.
    + intros p text v -> Hp Hv. unfold Objects.load in Hload.
      rewrite Hp, Hv in Hload. done.
    + intros p text err' -> Hp Herr.
      rewrite (load_malformed _ _ _ _ _ _ Hp Herr) in Hload.
      by injection Hload as ->.
  - exists (Some v), []. rewrite logged_nil.
    split_and!; [done | by intros ? [= <-] | done | | | simpl; lia | |].
    + split; [done | by intros [? [=]]].
    + split; [by intros _ [? [=]] | done].
    + intros p text v' -> Hp Hv. unfold Objects.load in Hload.
      rewrite Hp, Hv in Hload. by injection Hload as ->.
    + intros p text err -> Hp Herr.
      rewrite (load_malformed _ _ _ _ _ _ Hp Herr) in Hload. done.
Qed.

(** X14.  When [parseOption] finds no value for the keys, [getObject]
    reads the path [undefined]: it returns [undefined] and prints the
    [TypeError] of the read with the file named [undefined]. *)
Theorem getObject_without_value σ keys args :
  parseOption keys args = None →
  getObject keys args σ
  = (inr None,
     logged σ [name ERR_INVALID_ARG_TYPE +:+ ": "
               +:+ message ERR_INVALID_ARG_TYPE
               +:+ ". <File: 'undefined'>"]).
Proof.
  intros Hopt. unfold Objects.getObject. rewrite Hopt.
  by rewrite parseObject_load.
Qed.

(** X15.  [parseObjects] never throws and never changes a file, and it
    prints at most one line per path. *)
Theorem parseObjects_catches_everything σ paths :
  ∃ res lines,
    parseObjects paths σ = (inr res, logged σ lines)
    ∧ length lines ≤ length paths.
Proof. rewrite parseObjects_reduce. apply reduce_parseObjects_step_lines. Qed.



Lemma unmarked_spec v :
  unmarked v = true
  ↔ prop "@@transducer/reduced" (enumerable v) = None
    ∧ prop "__proto__" (enumerable v) = None.
Proof.
  unfold unmarked. rewrite andb_true_iff, !negb_true_iff.
  rewrite !bool_decide_eq_false, <- !eq_None_not_Some. done.
Qed.

Lemma plain_result_not_reduced acc : plain_result acc → reduced acc = false.
Proof.
  destruct acc as [[| | | | |[| |] kvs]|]; try done.
  intros [Hmark _]%unmarked_spec. cbn [enumerable] in Hmark.
  unfold reduced. by rewrite get_plain, Hmark, andb_false_r.
Qed.

(** The merge of an unmarked document into a plain accumulator. *)
Lemma merge_plain acc d :
  plain_result acc → unmarked d = true →
  plain_result (Some (mergeDeepLeft (from_option enumerable [] acc) d)).
Proof.
  intros Hacc [Hmark Hproto]%unmarked_spec.
  assert (prop "@@transducer/reduced" (from_option enumerable [] acc) = None
          ∧ prop "__proto__" (from_option enumerable [] acc) = None)
    as [Hlmark Hlproto].
  { destruct acc as [[| | | | |[| |] kvs]|]; try done.
    by apply unmarked_spec in Hacc. }
  unfold mergeDeepLeft, mergeDeepWithKey.
  pose proof (prop_mergeWithKey_other
                (mergeDeepWithKey_callback (λ _ lVal _, lVal))
                _ d "@@transducer/reduced" Hlmark Hmark) as Hown.
  destruct (mergeWithKey_plain (mergeDeepWithKey_callback (λ _ lVal _, lVal))
              _ d Hlproto Hproto) as (kvs' & Heq & Hproto').
  rewrite Heq in Hown |- *. simpl. apply unmarked_spec. split; [| done].
  by apply Hown.
Qed.

Lemma reduce_parseObjects_step_unmarked σ acc paths docs :
  Forall2 (λ path d, load σ path = inr d ∧ is_null d = false
                     ∧ unmarked d = true
                     ∧ placeholder_free d = true) paths docs →
  plain_result acc →
  reduce parseObjects_step acc paths σ
  = (inr (foldl (λ acc d,
                   Some (mergeDeepLeft (from_option enumerable [] acc) d))
            acc docs), σ).
Proof.
  intros Hall. revert acc.
  induction Hall as [|path d paths docs (Hload & Hnull & Hd & _) _ IH];
    intros acc Hacc; [done |].
  rewrite reduce_cons, parseObjects_step_load, Hload.
  unfold Objects.mergeDeepLeft_call. rewrite Hnull. cbn [andb].
  pose proof (merge_plain acc d Hacc Hd) as Hmerged.
  rewrite (plain_result_not_reduced _ Hmerged). by apply IH.
Qed.

(** X17.  When every path yields a document that is not [null], is
    unmarked and has no property [@@functional/placeholder],
    [parseObjects] prints nothing and returns the merge of [undefined]
    over the first document, merged over the second, the result over
    the third, and so on. *)
Theorem parseObjects_merges_in_order σ paths docs :
  Forall2 (λ path d, load σ path = inr d ∧ is_null d = false
                     ∧ unmarked d = true
                     ∧ placeholder_free d = true) paths docs →
  parseObjects paths σ = (inr (merge_all docs), σ).
Proof.
  intros Hall. rewrite parseObjects_reduce.
  by apply reduce_parseObjects_step_unmarked.
Qed.

Lemma reduce_parseObjects_step_keeps σ kvs paths k v :
  unmarked (JObj ObjectPrototype kvs) = true → NoDup kvs.*1 →
  prop k kvs = Some v → (∀ p o, v ≠ JObj p o) →
  Forall (λ path, ∀ d, load σ path = inr d →
                       unmarked d = true ∧ placeholder_free d = true) paths →
  ∃ res lines,
    reduce parseObjects_step (Some (JObj ObjectPrototype kvs)) paths σ
    = (inr (Some res), logged σ lines)
    ∧ own_property k res = Some v.
Proof.
  intros Hkvs Hnd Hk Hv Hall. revert σ kvs Hkvs Hnd Hk Hall.
  induction paths as [|path paths IH]; intros σ kvs Hkvs Hnd Hk Hall.
  - exists (JObj ObjectPrototype kvs), []. by rewrite logged_nil.
  - apply Forall_cons in Hall as [Hpath Hall].
    rewrite reduce_cons, parseObjects_step_load.
    assert (∀ line, ∃ res lines,
              (if reduced (Some (JObj ObjectPrototype kvs))
               then (inr (Some (JObj ObjectPrototype kvs)
                          ≫= get "@@transducer/value"), logged σ [line])
               else reduce parseObjects_step (Some (JObj ObjectPrototype kvs))
                      paths (logged σ [line]))
              = (inr (Some res), logged σ lines) ∧ own_property k res = Some v)
      as Hskip.
    { intros line.
      rewrite (plain_result_not_reduced (Some (JObj ObjectPrototype kvs)))
        by done.
      destruct (IH (logged σ [line]) kvs Hkvs Hnd Hk Hall)
        as (res & lines & -> & Hres).
      exists res, (line :: lines). by rewrite logged_logged. }
    destruct (load σ path) as [err|d] eqn:Hload; [apply Hskip |].
    destruct (Objects.mergeDeepLeft_call (Some (JObj ObjectPrototype kvs)) d)
      as [err|merged] eqn:Hm; [apply Hskip |].
    unfold Objects.mergeDeepLeft_call in Hm.
    destruct (is_null d && _); [done |]. injection Hm as <-.
    pose proof (merge_plain (Some (JObj ObjectPrototype kvs)) d Hkvs
                  (proj1 (Hpath d eq_refl))) as Hmerged.
    cbn [from_option enumerable] in Hmerged.
    rewrite (plain_result_not_reduced _ Hmerged).
    assert (k ≠ "__proto__") as Hne.
    { intros ->. apply unmarked_spec in Hkvs as [_ Hproto]. simpl in Hproto.
      congruence. }
    pose proof (prop_mergeWithKey
                  (mergeDeepWithKey_callback (λ _ lVal _, lVal))
                  kvs d k Hnd Hne) as Hlookup.
    pose proof (NoDup_mergeWithKey
                  (mergeDeepWithKey_callback (λ _ lVal _, lVal)) kvs d)
      as Hnd'.
    unfold mergeDeepLeft, mergeDeepWithKey in Hmerged |- *.
    destruct (mergeWithKey _ kvs d) as [| | | | |[| |] kvs']; try done.
    apply IH; [done | done | | done].
    simpl in Hlookup. rewrite Hlookup, Hk. f_equal.
    destruct (own_property k d) as [rVal|]; [| done].
    destruct v; try done. by destruct (Hv proto kvs0).
Qed.

(** X18.  The first file wins: when the first path yields a document,
    a property of it whose value is not an object is in the result of
    [parseObjects] with that value, whatever the later paths hold, as
    long as the documents of all the paths are unmarked and have no
    property [@@functional/placeholder]. *)
Theorem parseObjects_first_file_wins σ path d paths k v :
  load σ path = inr d → unmarked d = true → placeholder_free d = true →
  prop k (enumerable d) = Some v → (∀ p o, v ≠ JObj p o) →
  Forall (λ path, ∀ d', load σ path = inr d' →
                        unmarked d' = true ∧ placeholder_free d' = true)
    paths →
  ∃ res lines,
    parseObjects (path :: paths) σ = (inr (Some res), logged σ lines)
    ∧ own_property k res = Some v.
Proof.
  intros Hload Hd _ Hk Hv Hall. rewrite parseObjects_reduce.
  rewrite reduce_cons, parseObjects_step_load, Hload.
  unfold Objects.mergeDeepLeft_call. rewrite andb_false_r.
  pose proof (merge_plain None d I Hd) as Hmerged.
  cbn [from_option] in Hmerged |- *.
  rewrite (plain_result_not_reduced _ Hmerged).
  assert (k ≠ "__proto__") as Hne.
  { intros ->. apply unmarked_spec in Hd as [_ Hproto]. congruence. }
  pose proof (prop_mergeWithKey
                (mergeDeepWithKey_callback (λ _ lVal _, lVal))
                [] d k (NoDup_nil_2 : NoDup ([] : object).*1) Hne) as Hlookup.
  pose proof (NoDup_mergeWithKey
                (mergeDeepWithKey_callback (λ _ lVal _, lVal)) [] d)
    as Hnd.
  unfold mergeDeepLeft, mergeDeepWithKey in Hmerged |- *.
  destruct (mergeWithKey _ [] d) as [| | | | |[| |] kvs]; try done.
  apply reduce_parseObjects_step_keeps; try done.
  simpl in Hlookup. by rewrite Hlookup.
Qed.



Lemma getDefaultObject_logged σ defaultValue :
  ∃ res lines,
    getDefaultObject defaultValue σ = (inr res, logged σ lines)
    ∧ length lines ≤ 1.
Proof.
  unfold Objects.getDefaultObject, mbind, M_bind, Objects.existsSync.
  destruct (match defaultValue with Some p => _ | None => _ end).
  - rewrite parseObject_load. destruct (load σ defaultValue) as [err|v].
    + by exists None, [diagnostic err defaultValue].
    + exists (Some v), []. rewrite logged_nil. split; [done | simpl; lia].
  - exists None, []. rewrite logged_nil. split; [done | simpl; lia].
Qed.

Lemma getDefaultObjects_logged σ defaultValues :
  ∃ res lines,
    getDefaultObjects defaultValues σ = (inr res, logged σ lines)
    ∧ length lines ≤ length defaultValues.
Proof.
  unfold Objects.getDefaultObjects, mbind, M_bind.
  destruct (filterM_existsSync_length σ defaultValues)
    as (existing & -> & Hlen).
  rewrite parseObjects_reduce.
  destruct (reduce_parseObjects_step_lines JSON_parse ERR_INVALID_ARG_TYPE σ
              None existing)
    as (res & lines & -> & Hlines).
  exists res, lines. split; [done | lia].
Qed.

Lemma getObjectOverDefault_logged σ defaultValue keys args :
  ∃ res lines,
    getObjectOverDefault defaultValue keys args σ = (inr res, logged σ lines)
    ∧ length lines ≤ 2.
Proof.
  unfold Objects.getObjectOverDefault.
  destruct (parseOption keys args) as [p|] eqn:Hopt; simpl.
  - unfold mbind, M_bind. rewrite parseObject_load.
    destruct (load σ (Some p)) as [err|v].
    + simpl.
      destruct (getDefaultObject_logged (logged σ [diagnostic err (Some p)])
                  defaultValue) as (res & lines & -> & Hlen).
      exists res, (diagnostic err (Some p) :: lines).
      rewrite logged_logged. split; [done | simpl; lia].
    + simpl. destruct (is_null v).
      * destruct (getDefaultObject_logged σ defaultValue)
          as (res & lines & -> & Hlen).
        exists res, lines. split; [done | lia].
      * exists (Some v), []. rewrite logged_nil. split; [done | simpl; lia].
  - destruct (getDefaultObject_logged σ defaultValue)
      as (res & lines & -> & Hlen).
    exists res, lines. split; [done | lia].
Qed.

Lemma getObjects_logged σ defaultValues keys args :
  ∃ res lines,
    getObjects defaultValues keys args σ = (inr res, logged σ lines)
    ∧ length lines
      ≤ length (parseOptionsMultiple keys args) + length defaultValues.
Proof.
  unfold Objects.getObjects. unfold mbind at 1, M_bind at 1.
  rewrite parseObjects_reduce.
  destruct (reduce_parseObjects_step_lines JSON_parse ERR_INVALID_ARG_TYPE σ
              None (Some <$> parseOptionsMultiple keys args))
    as (A & lines1 & -> & Hlen1).
  rewrite length_fmap in Hlen1.
  destruct (getDefaultObjects_logged (logged σ lines1) defaultValues)
    as (B & lines2 & HB & Hlen2).
  destruct (isNil A); cbn [negb].
  - exists B, (lines1 ++ lines2).
    rewrite HB, logged_logged, length_app. split; [done | lia].
  - unfold mbind, M_bind. rewrite HB.
    exists (match B with
            | Some d =>
                if is_null d then A
                else Some (mergeDeepLeft (from_option enumerable [] A) d)
            | None => A
            end), (lines1 ++ lines2).
    rewrite <- logged_logged, length_app. split; [| lia].
    destruct B as [d|]; [| done].
    destruct (is_null d) eqn:Hnull; cbn [negb]; [done |].
    unfold lift, Objects.mergeDeepLeft_call. by rewrite Hnull.
Qed.

(** X19.  The two assemblers never throw and never change a file:
    [getObjectOverDefault] prints at most two lines, [getObjects] at most
    one line per explicit path and per default path. *)
Theorem assemblers_catch_everything σ keys args :
  (∀ defaultValue, ∃ res lines,
     getObjectOverDefault defaultValue keys args σ = (inr res, logged σ lines)
     ∧ length lines ≤ 2)
  ∧ (∀ defaultValues, ∃ res lines,
       getObjects defaultValues keys args σ = (inr res, logged σ lines)
       ∧ length lines
         ≤ length (parseOptionsMultiple keys args) + length defaultValues).
Proof.
  split; intros d; [apply getObjectOverDefault_logged | apply getObjects_logged].
Qed.

End LoaderProperties.

(** ** The commands *)

Section CommandProperties.

Variable JSON_parse : string → error + json.
Variable ERR_INVALID_ARG_TYPE : error.
Variable write_error :
  gmap string entry → string → string → option (error * option string).
Variable path_join : string → string → string.
Variable path_dirname : string → string.
Variable execPath : string.
Variable Diagram : Type.
Variable Diagram_new :
  json → option json → option json → option json → error + Diagram.
Variable generate : Diagram → error + option Diagram.
Variable svg_svg : Diagram → error + string.

#[local] Abbreviation getObjectOverDefault :=
  (Objects.getObjectOverDefault JSON_parse ERR_INVALID_ARG_TYPE).
#[local] Abbreviation getObjects :=
  (Objects.getObjects JSON_parse ERR_INVALID_ARG_TYPE).
#[local] Abbreviation load := (Objects.load JSON_parse ERR_INVALID_ARG_TYPE).
#[local] Abbreviation logged := Objects.logged.
#[local] Abbreviation pretendInsideExecDir :=
  (Commands.pretendInsideExecDir path_join path_dirname execPath).
#[local] Abbreviation setDefault :=
  (Commands.setDefault path_join path_dirname execPath).
#[local] Abbreviation diagram_then :=
  (Commands.diagram_then ERR_INVALID_ARG_TYPE write_error Diagram svg_svg).
#[local] Abbreviation createDiagram :=
  (Commands.createDiagram JSON_parse ERR_INVALID_ARG_TYPE
     path_join path_dirname execPath Diagram Diagram_new).
#[local] Abbreviation diagram :=
  (Commands.diagram JSON_parse ERR_INVALID_ARG_TYPE write_error
     path_join path_dirname execPath Diagram Diagram_new generate svg_svg).
#[local] Abbreviation applyCommands :=
  (Commands.applyCommands JSON_parse ERR_INVALID_ARG_TYPE write_error
     path_join path_dirname execPath Diagram Diagram_new generate svg_svg).

Lemma setDefault_run σ fileName :
  setDefault fileName σ
  = (inr (if bool_decide (is_Some (files σ !! pretendInsideExecDir fileName))
          then Some (pretendInsideExecDir fileName) else None), σ).
Proof.
  unfold Commands.setDefault, Commands.checkIfExists, mbind, M_bind,
    Objects.existsSync.
  by destruct (bool_decide _).
Qed.

Lemma getDefaultObject_missing σ (p : string) :
  files σ !! p = None →
  Objects.getDefaultObject JSON_parse ERR_INVALID_ARG_TYPE (Some p) σ
  = Objects.getDefaultObject JSON_parse ERR_INVALID_ARG_TYPE None σ.
Proof.
  intros Hp. unfold Objects.getDefaultObject, mbind, M_bind, Objects.existsSync.
  rewrite Hp. rewrite bool_decide_eq_false_2; [done |]. by intros [? [=]].
Qed.

Lemma getObjects_defaults_ext σ defaults1 defaults2 keys args :
  (∀ σ', files σ' = files σ →
         Objects.getDefaultObjects JSON_parse ERR_INVALID_ARG_TYPE defaults1 σ'
         = Objects.getDefaultObjects JSON_parse ERR_INVALID_ARG_TYPE
             defaults2 σ') →
  getObjects defaults1 keys args σ = getObjects defaults2 keys args σ.
Proof.
  intros Hdefaults. unfold Objects.getObjects, mbind, M_bind.
  rewrite parseObjects_reduce.
  destruct (reduce_parseObjects_step_lines JSON_parse ERR_INVALID_ARG_TYPE
              σ None (Some <$> parseOptionsMultiple keys args))
    as (A & lines & -> & _).
  destruct (isNil A); cbn [negb]; cbn beta;
    by rewrite (Hdefaults (logged σ lines)).
Qed.

(** X20.  The existence check of [setDefault] changes nothing for the
    assemblers: they give the same result and print the same lines for
    the checked default path as for the path itself. *)
Theorem setDefault_is_redundant σ fileName keys args :
  (defaultValue ← setDefault fileName;
   getObjectOverDefault defaultValue keys args) σ
  = getObjectOverDefault (Some (pretendInsideExecDir fileName)) keys args σ
  ∧ (defaultValue ← setDefault fileName;
     getObjects [defaultValue] keys args) σ
    = getObjects [Some (pretendInsideExecDir fileName)] keys args σ.
Proof.
  split; unfold mbind at 1, M_bind at 1; rewrite setDefault_run;
    set (p := pretendInsideExecDir fileName);
    (case_bool_decide as Hp; [done |]);
    (assert (files σ !! p = None) as Hnone
       by (destruct (files σ !! p) eqn:E; [destruct Hp; eauto | done])).
  - unfold Objects.getObjectOverDefault.
    destruct (parseOption keys args) as [q|]; simpl;
      [| by rewrite getDefaultObject_missing].
    unfold mbind, M_bind. rewrite parseObject_load.
    destruct (load σ (Some q)) as [err|v]; simpl.
    + by rewrite getDefaultObject_missing.
    + destruct (is_null v); [| done]. by rewrite getDefaultObject_missing.
  - apply getObjects_defaults_ext. intros σ' Hσ'.
    unfold Objects.getDefaultObjects, mbind, M_bind. cbn [filterM].
    unfold mbind, M_bind, Objects.existsSync. simpl. rewrite Hσ', Hnone.
    rewrite bool_decide_eq_false_2; [done |]. by intros [? [=]].
Qed.

Lemma createDiagram_logged σ args :
  ∃ res lines,
    createDiagram args σ = (inr res, logged σ lines)
    ∧ ∀ d, res = Some d →
        ∃ v style mjConfig mjTypeset,
          load σ (parseOption ["-d"; "--diagram"] args) = inr v
          ∧ is_null v = false
          ∧ Diagram_new v style mjConfig mjTypeset = inr d.
Proof.
  unfold Commands.createDiagram, Objects.getObject.
  unfold mbind at 1, M_bind at 1. rewrite parseObject_load.
  destruct (load σ (parseOption _ args)) as [err|v] eqn:Hload.
  { by exists None, [Objects.diagnostic err (parseOption ["-d"; "--diagram"] args)]. }
  destruct (is_null v) eqn:Hnull.
  { exists None, []. by rewrite logged_nil. }
  unfold tryCatch, mbind, M_bind. rewrite setDefault_run.
  destruct (getObjects_logged JSON_parse ERR_INVALID_ARG_TYPE σ
              [if bool_decide (is_Some (files σ !! pretendInsideExecDir "style.json"))
               then Some (pretendInsideExecDir "style.json") else None]
              ["-s"; "--style"] args)
    as (style & lines1 & -> & _).
  rewrite setDefault_run.
  destruct (getObjectOverDefault_logged JSON_parse ERR_INVALID_ARG_TYPE
              (logged σ lines1)
              (if bool_decide (is_Some (files (logged σ lines1)
                                          !! pretendInsideExecDir "mathjax_config.json"))
               then Some (pretendInsideExecDir "mathjax_config.json") else None)
              ["-c"; "--config"] args)
    as (mjConfig & lines2 & -> & _).
  rewrite setDefault_run.
  destruct (getObjectOverDefault_logged JSON_parse ERR_INVALID_ARG_TYPE
              (logged (logged σ lines1) lines2)
              (if bool_decide (is_Some (files (logged (logged σ lines1) lines2)
                                          !! pretendInsideExecDir "mathjax_typeset.json"))
               then Some (pretendInsideExecDir "mathjax_typeset.json") else None)
              ["-t"; "--typeset"] args)
    as (mjTypeset & lines3 & -> & _).
  unfold lift, mret, M_ret, console_log.
  destruct (Diagram_new v style mjConfig mjTypeset) as [err|d] eqn:Hnew.
  - exists None, (lines1 ++ lines2 ++ lines3 ++ [Commands.not_created err]).
    split; [| done]. unfold Objects.logged. simpl.
    by rewrite <- !app_assoc.
  - exists (Some d), (lines1 ++ lines2 ++ lines3).
    split; [unfold Objects.logged; simpl; by rewrite <- !app_assoc |].
    intros d' [= <-]. by exists v, style, mjConfig, mjTypeset.
Qed.

Lemma console_log_each_logged σ lines :
  Commands.console_log_each lines σ = (inr (), logged σ lines).
Proof.
  revert σ. induction lines as [|line lines IH]; intros σ.
  - by rewrite logged_nil.
  - cbn [Commands.console_log_each]. unfold mbind, M_bind, console_log.
    rewrite IH. unfold Objects.logged. simpl. by rewrite <- app_assoc.
Qed.

Lemma store_other (p q : string) text (fs : gmap string entry) :
  p ≠ q → Commands.store p text fs !! q = fs !! q.
Proof.
  intros Hne. unfold Commands.store.
  destruct (fs !! p) as [[err|old]|]; [done | |]; by rewrite lookup_insert_ne.
Qed.

(** What the callback of [then] leaves behind. *)
Lemma diagram_then_effect σ args d :
  (∃ lines,
     console (diagram_then args d σ).2 = console σ ++ lines)
  ∧ (files (diagram_then args d σ).2 = files σ
     ∨ ∃ (p svg text : string),
         svg_svg d = inr svg
         ∧ parseOption ["-o"; "--output"] args = Some p
         ∧ files (diagram_then args d σ).2
           = Commands.store p text (files σ)
         ∧ (write_error (files σ) p svg = None ∧ text = svg
            ∨ ∃ err, write_error (files σ) p svg = Some (err, Some text)))
  ∧ (∀ err, (diagram_then args d σ).1 = inl err →
            svg_svg d = inl err
            ∧ isOption ["-o"; "--output"] args = false
            ∧ isOption ["-w"; "--write"] args = true).
Proof.
  unfold Commands.diagram_then.
  destruct (isOption ["-o"; "--output"] args).
  - rewrite output_run. destruct (svg_svg d) as [err|svg] eqn:Hsvg.
    { split_and!; [by eexists | by left | done]. }
    destruct (parseOption _ args) as [p|] eqn:Hp.
    2:{ split_and!; [by eexists | by left | done]. }
    destruct (write_error (files σ) p svg) as [[err [rest|]]|] eqn:Hw.
    + split_and!; [by eexists | | done].
      right. exists p, svg, rest. split_and!; [done.. |]. right. by exists err.
    + split_and!; [by eexists | by left | done].
    + split_and!; [exists []; simpl; by rewrite app_nil_r | | done].
      right. exists p, svg, svg. split_and!; [done.. |]. by left.
  - destruct (isOption ["-w"; "--write"] args).
    + unfold mbind, M_bind, lift. destruct (svg_svg d) as [err|svg].
      * split_and!; [exists []; simpl; by rewrite app_nil_r | by left |].
        by intros ? [= <-].
      * split_and!; [by eexists | by left | done].
    + split_and!; [exists []; simpl; by rewrite app_nil_r | by left | done].
Qed.

(** X21.  Without a diagram document nothing else is looked at: when the
    file of the diagram option yields no document, [createDiagram]
    returns [undefined] after the one line about that file, so no style
    or MathJax file is reported, and [diagram] writes nothing. *)
Theorem createDiagram_requires_diagram σ args err :
  load σ (parseOption ["-d"; "--diagram"] args) = inl err →
  createDiagram args σ
  = (inr None,
     logged σ [Objects.diagnostic err (parseOption ["-d"; "--diagram"] args)])
  ∧ diagram args σ
    = (inr (),
       logged σ [Objects.diagnostic err (parseOption ["-d"; "--diagram"] args)]).
Proof.
  intros Hload.
  assert (createDiagram args σ
          = (inr None,
             logged σ [Objects.diagnostic err
                         (parseOption ["-d"; "--diagram"] args)])) as Hcreate.
  { unfold Commands.createDiagram, Objects.getObject, mbind, M_bind.
    by rewrite parseObject_load, Hload. }
  split; [done |]. unfold Commands.diagram, mbind, M_bind. by rewrite Hcreate.
Qed.

(** X22.  [createDiagram] never throws and never changes a file, also
    when the constructor of the rendering engine throws; it returns a
    diagram only when the file of the diagram option yields a document
    other than [null], and then it is what the constructor made of that
    document. *)
Theorem createDiagram_catches_everything σ args :
  ∃ res lines,
    createDiagram args σ = (inr res, logged σ lines)
    ∧ ∀ d, res = Some d →
        ∃ v style mjConfig mjTypeset,
          load σ (parseOption ["-d"; "--diagram"] args) = inr v
          ∧ is_null v = false
          ∧ Diagram_new v style mjConfig mjTypeset = inr d.
Proof. apply createDiagram_logged. Qed.

(** X23.  The order of the commands: with a help option [applyCommands]
    prints the help lines and nothing else, whatever else is asked;
    without one and with a version option it prints the version line;
    with none of the help, version and diagram options it prints the help
    lines.  No file is changed in these cases. *)
Theorem applyCommands_help_and_version σ args :
  (isOption ["-h"; "--help"] args = true →
   applyCommands args σ = (inr (), logged σ Commands.help_lines))
  ∧ (isOption ["-h"; "--help"] args = false →
     isOption ["-v"; "--version"] args = true →
     applyCommands args σ
     = (inr (), logged σ [Commands.DQ +:+ "Rho" +:+ Commands.DQ
                          +:+ " version: 0.0.1"]))
  ∧ (isOption ["-h"; "--help"] args = false →
     isOption ["-v"; "--version"] args = false →
     isOption ["-d"; "--diagram"] args = false →
     applyCommands args σ = (inr (), logged σ Commands.help_lines)).
Proof.
  unfold Commands.applyCommands, Commands.help. split_and!.
  - intros ->. apply console_log_each_logged.
  - by intros -> ->.
  - intros -> -> ->. apply console_log_each_logged.
Qed.

(** The three ways [applyCommands] ends. *)
Lemma applyCommands_cases σ args :
  ∃ run,
    applyCommands args σ = run
    ∧ ((∃ lines, run = (inr (), logged σ lines))
       ∨ ∃ lines v style mjConfig mjTypeset d0,
           load σ (parseOption ["-d"; "--diagram"] args) = inr v
           ∧ Diagram_new v style mjConfig mjTypeset = inr d0
           ∧ ((∃ err, generate d0 = inl err
                      ∧ run = (inl err, logged σ lines))
              ∨ (∃ d, generate d0 = inr (Some d)
                      ∧ run = diagram_then args d (logged σ lines)))).
Proof.
  unfold Commands.applyCommands, Commands.help, Commands.version.
  destruct (isOption ["-h"; "--help"] args).
  { eexists. split; [apply console_log_each_logged |]. left. by eexists. }
  destruct (isOption ["-v"; "--version"] args).
  { eexists. split; [done |]. left. by eexists. }
  destruct (isOption ["-d"; "--diagram"] args).
  2:{ eexists. split; [apply console_log_each_logged |]. left. by eexists. }
  unfold Commands.diagram. unfold mbind at 1, M_bind at 1.
  destruct (createDiagram_logged σ args) as (res & lines & -> & Hmade).
  destruct res as [d0|].
  2:{ eexists. split; [done |]. left. by eexists. }
  destruct (Hmade d0 eq_refl)
    as (v & style & mjConfig & mjTypeset & Hload & _ & Hnew).
  unfold mbind, M_bind, lift.
  destruct (generate d0) as [err|[d|]] eqn:Hgenerate.
  - eexists. split; [done |]. right.
    exists lines, v, style, mjConfig, mjTypeset, d0.
    split_and!; [done | done |]. left. by exists err.
  - eexists. split; [done |]. right.
    exists lines, v, style, mjConfig, mjTypeset, d0.
    split_and!; [done | done |]. right. by exists d.
  - eexists. split; [done |]. left. by eexists.
Qed.

(** X24.  [applyCommands] only adds lines to the console.  The only file
    it can change is the one [parseOption] finds for the output option,
    and only by the write of [output]: after it the file holds the text
    [svg()] gave for the diagram that [generate()] resolved with, for
    the diagram made of the document of the diagram option, or what a
    failed write left in it.  An error escapes only from [generate()],
    or from [svg()] when the text is to be printed, with a write option
    and no output option. *)
Theorem applyCommands_writes_only_output σ args :
  (∃ lines, console (applyCommands args σ).2 = console σ ++ lines)
  ∧ (∀ q : string, parseOption ["-o"; "--output"] args ≠ Some q →
                   files (applyCommands args σ).2 !! q = files σ !! q)
  ∧ (files (applyCommands args σ).2 = files σ
     ∨ ∃ v style mjConfig mjTypeset d0 d (p svg text : string),
         load σ (parseOption ["-d"; "--diagram"] args) = inr v
         ∧ Diagram_new v style mjConfig mjTypeset = inr d0
         ∧ generate d0 = inr (Some d) ∧ svg_svg d = inr svg
         ∧ parseOption ["-o"; "--output"] args = Some p
         ∧ files (applyCommands args σ).2 = Commands.store p text (files σ)
         ∧ (write_error (files σ) p svg = None ∧ text = svg
            ∨ ∃ err, write_error (files σ) p svg = Some (err, Some text)))
  ∧ (∀ err, (applyCommands args σ).1 = inl err →
       ∃ v style mjConfig mjTypeset d0,
         load σ (parseOption ["-d"; "--diagram"] args) = inr v
         ∧ Diagram_new v style mjConfig mjTypeset = inr d0
         ∧ (generate d0 = inl err
            ∨ ∃ d, generate d0 = inr (Some d) ∧ svg_svg d = inl err
                   ∧ isOption ["-o"; "--output"] args = false
                   ∧ isOption ["-w"; "--write"] args = true)).
Proof.
  destruct (applyCommands_cases σ args)
    as (run & -> & [[lines ->]
                   | (lines & v & style & mjConfig & mjTypeset & d0 & Hload
                      & Hnew & [(err & Hgenerate & ->)
                               | (d & Hgenerate & ->)])]).
  - split_and!; [by eexists | done | by left | done].
  - split_and!; [by eexists | done | by left |].
    intros ? [= <-]. exists v, style, mjConfig, mjTypeset, d0.
    split_and!; [done | done |]. by left.
  - destruct (diagram_then_effect (logged σ lines) args d)
      as ([lines' Hconsole] & Hfiles & Herr).
    split_and!.
    + exists (lines ++ lines'). rewrite Hconsole. simpl. by rewrite app_assoc.
    + intros q Hq.
      destruct Hfiles as [-> | (p & svg & text & _ & Hp & -> & _)]; [done |].
      simpl. apply store_other. congruence.
    + destruct Hfiles as [Hsame | (p & svg & text & Hsvg & Hp & Hstore & Hw)];
        [by left |].
      right. by exists v, style, mjConfig, mjTypeset, d0, d, p, svg, text.
    + intros err Hrun. destruct (Herr err Hrun) as (Hsvg & Ho & Hw).
      exists v, style, mjConfig, mjTypeset, d0.
      split_and!; [done | done |]. right. by exists d.
Qed.

End CommandProperties.
(** ** Worked instances of the further properties *)

Lemma parseOption_ignores_prefix_witness :
  parseOption ["-d"] (["node"; "main.js"; "-d"; "old.json"] ++ ["-d"; "new.json"])
  = parseOption ["-d"] ["-d"; "new.json"].
Proof.
  apply parseOption_ignores_prefix. exists "-d". split; by_decision.
Defined.

Lemma parseOption_keys_as_set_witness :
  parseOption ["--diagram"; "-d"; "-d"] ["-d"; "a.json"; "--diagram"; "b.json"]
  = parseOption ["-d"; "--diagram"] ["-d"; "a.json"; "--diagram"; "b.json"].
Proof.
  apply parseOption_keys_as_set. intros k.
  rewrite !elem_of_cons, !elem_of_nil. tauto.
Defined.

Lemma parseOption_among_parseOptionsMultiple_witness :
  "b.json" ∈ parseOptionsMultiple ["-s"; "--style"]
               ["-s"; "a.json"; "--style"; "b.json"].
Proof.
  apply parseOption_among_parseOptionsMultiple; [reflexivity | done].
Defined.

Lemma mergeDeepLeft_empty_witness :
  Objects.mergeDeepLeft_call None (JObj ObjectPrototype Sample.st2)
  = inr (JObj ObjectPrototype Sample.st2)
  ∧ Objects.mergeDeepLeft_call (Some (JObj ObjectPrototype Sample.st2))
      (JObj ObjectPrototype [])
    = inr (JObj ObjectPrototype Sample.st2).
Proof.
  apply mergeDeepLeft_empty; [| reflexivity | reflexivity].
  split; [by_decision |]. repeat constructor.
Defined.



Lemma parseObject_catches_everything_witness :
  ∃ res lines,
    Objects.parseObject Sample.JSON_parse Sample.ERR_INVALID_ARG_TYPE
      (Some "bad.json") Sample.start
    = (inr res, Objects.logged Sample.start lines)
    ∧ res = None
    ∧ lines = ["SyntaxError: Unexpected end of JSON input. <File: 'bad.json'>"].
Proof.
  destruct (parseObject_catches_everything Sample.JSON_parse
              Sample.ERR_INVALID_ARG_TYPE Sample.start (Some "bad.json"))
    as (res & lines & Hrun & _ & _ & _ & _ & _ & _ & Hmalformed).
  exists res, lines. split; [exact Hrun |].
  apply (Hmalformed "bad.json" "{" Sample.SyntaxError);
    [reflexivity | by_evaluation | by_evaluation].
Defined.

Lemma getObject_without_value_witness :
  Objects.getObject Sample.JSON_parse Sample.ERR_INVALID_ARG_TYPE
    ["-d"; "--diagram"] ["node"; "main.js"; "-d"] Sample.start
  = (inr None,
     Objects.logged Sample.start
       ["TypeError: The path argument must be of type string. <File: 'undefined'>"]).
Proof.
  apply (getObject_without_value Sample.JSON_parse Sample.ERR_INVALID_ARG_TYPE
           Sample.start ["-d"; "--diagram"] ["node"; "main.js"; "-d"]).
  reflexivity.
Defined.

Lemma parseObjects_merges_in_order_witness :
  Objects.parseObjects Sample.JSON_parse Sample.ERR_INVALID_ARG_TYPE
    [Some "st2.json"; Some "st1.json"; Some "st2.json"] Sample.start
  = (inr (Some (JObj ObjectPrototype
                  [("b", JStr "2");
                   ("c", JObj ObjectPrototype
                           [("y", JStr "d2"); ("x", JStr "d1")]);
                   ("a", JStr "1")])),
     Sample.start).
Proof.
  rewrite (parseObjects_merges_in_order Sample.JSON_parse
             Sample.ERR_INVALID_ARG_TYPE Sample.start
             [Some "st2.json"; Some "st1.json"; Some "st2.json"]
             [JObj ObjectPrototype Sample.st2; JObj ObjectPrototype Sample.st1;
              JObj ObjectPrototype Sample.st2]).
  - by_evaluation.
  - repeat constructor; by_evaluation.
Defined.

Lemma parseObjects_first_file_wins_witness :
  ∃ res lines,
    Objects.parseObjects Sample.JSON_parse Sample.ERR_INVALID_ARG_TYPE
      [Some "st1.json"; Some "bad.json"; Some "st2.json"] Sample.start
    = (inr (Some res), Objects.logged Sample.start lines)
    ∧ own_property "a" res = Some (JStr "1").
Proof.
  apply (parseObjects_first_file_wins Sample.JSON_parse
           Sample.ERR_INVALID_ARG_TYPE Sample.start (Some "st1.json")
           (JObj ObjectPrototype Sample.st1));
    [by_evaluation | by_evaluation | by_evaluation | reflexivity | done |].
  apply Forall_cons. split.
  { intros d' Hload. vm_compute in Hload. discriminate. }
  apply Forall_cons. split; [| constructor].
  intros d' Hload.
  assert (d' = JObj ObjectPrototype Sample.st2) as ->.
  { vm_compute in Hload. by injection Hload as <-. }
  split; by_evaluation.
Defined.


Lemma createDiagram_requires_diagram_witness :
  Commands.createDiagram Sample.JSON_parse Sample.ERR_INVALID_ARG_TYPE
    SampleEngine.path_join SampleEngine.path_dirname SampleEngine.execPath
    SampleEngine.Diagram SampleEngine.Diagram_new
    ["-d"; "missing.json"; "-s"; "bad.json"] Sample.start
  = (inr None,
     Objects.logged Sample.start
       [Objects.diagnostic (ENOENT "missing.json") (Some "missing.json")]).
Proof.
  apply (proj1 (createDiagram_requires_diagram Sample.JSON_parse
                  Sample.ERR_INVALID_ARG_TYPE Sample.read_only
                  SampleEngine.path_join SampleEngine.path_dirname
                  SampleEngine.execPath SampleEngine.Diagram
                  SampleEngine.Diagram_new SampleEngine.generate
                  SampleEngine.svg_svg Sample.start
                  ["-d"; "missing.json"; "-s"; "bad.json"]
                  (ENOENT "missing.json") ltac:(by_evaluation))).
Defined.

Lemma createDiagram_catches_everything_witness :
  ∃ v style mjConfig mjTypeset,
    Objects.load Sample.JSON_parse Sample.ERR_INVALID_ARG_TYPE Sample.start
      (parseOption ["-d"; "--diagram"] ["-d"; "st1.json"; "-s"; "st2.json"])
    = inr v
    ∧ is_null v = false
    ∧ SampleEngine.Diagram_new v style mjConfig mjTypeset
      = inr (JObj ObjectPrototype Sample.st1,
             Some (JObj ObjectPrototype Sample.st2)).
Proof.
  destruct (createDiagram_catches_everything Sample.JSON_parse
              Sample.ERR_INVALID_ARG_TYPE SampleEngine.path_join
              SampleEngine.path_dirname SampleEngine.execPath
              SampleEngine.Diagram SampleEngine.Diagram_new Sample.start
              ["-d"; "st1.json"; "-s"; "st2.json"])
    as (res & lines & Hrun & Hmade).
  apply Hmade.
  assert (Commands.createDiagram Sample.JSON_parse Sample.ERR_INVALID_ARG_TYPE
            SampleEngine.path_join SampleEngine.path_dirname
            SampleEngine.execPath SampleEngine.Diagram
            SampleEngine.Diagram_new
            ["-d"; "st1.json"; "-s"; "st2.json"] Sample.start
          = (inr (Some (JObj ObjectPrototype Sample.st1,
                        Some (JObj ObjectPrototype Sample.st2))),
             Sample.start))
    as Hvalue by by_evaluation.
  rewrite Hvalue in Hrun. by injection Hrun as <- _.
Defined.

Lemma applyCommands_help_and_version_witness :
  Commands.applyCommands Sample.JSON_parse Sample.ERR_INVALID_ARG_TYPE
    Sample.read_only SampleEngine.path_join SampleEngine.path_dirname
    SampleEngine.execPath SampleEngine.Diagram SampleEngine.Diagram_new
    SampleEngine.generate SampleEngine.svg_svg
    ["-d"; "st1.json"; "-v"; "--help"] Sample.start
  = (inr (), Objects.logged Sample.start Commands.help_lines)
  ∧ Commands.applyCommands Sample.JSON_parse Sample.ERR_INVALID_ARG_TYPE
      Sample.read_only SampleEngine.path_join SampleEngine.path_dirname
      SampleEngine.execPath SampleEngine.Diagram SampleEngine.Diagram_new
      SampleEngine.generate SampleEngine.svg_svg
      ["-d"; "st1.json"; "-v"] Sample.start
    = (inr (),
       Objects.logged Sample.start
         [Commands.DQ +:+ "Rho" +:+ Commands.DQ +:+ " version: 0.0.1"])
  ∧ Commands.applyCommands Sample.JSON_parse Sample.ERR_INVALID_ARG_TYPE
      Sample.read_only SampleEngine.path_join SampleEngine.path_dirname
      SampleEngine.execPath SampleEngine.Diagram SampleEngine.Diagram_new
      SampleEngine.generate SampleEngine.svg_svg
      ["-o"; "out.svg"] Sample.start
    = (inr (), Objects.logged Sample.start Commands.help_lines).
Proof.
  split_and!.
  - by apply (proj1 (applyCommands_help_and_version _ _ _ _ _ _ _ _ _ _ _ _)).
  - by apply (proj1 (proj2 (applyCommands_help_and_version
                              _ _ _ _ _ _ _ _ _ _ _ _))).
  - by apply (proj2 (proj2 (applyCommands_help_and_version
                              _ _ _ _ _ _ _ _ _ _ _ _))).
Defined.

(** What escapes [applyCommands]: the rejection of [generate()], and the
    error of [svg()] when the text is to be printed; with an output
    option the error of [svg()] is caught and reported. *)
Example applyCommands_error_escapes :
  Commands.applyCommands Sample.JSON_parse Sample.ERR_INVALID_ARG_TYPE
    Sample.writable SampleEngine.path_join SampleEngine.path_dirname
    SampleEngine.execPath SampleEngine.Diagram SampleEngine.Diagram_new
    SampleEngine.generate_rejects SampleEngine.svg_svg
    ["-d"; "st1.json"; "-o"; "out.svg"] Sample.start
  = (inl SampleEngine.RenderError, Sample.start)
  ∧ Commands.applyCommands Sample.JSON_parse Sample.ERR_INVALID_ARG_TYPE
      Sample.writable SampleEngine.path_join SampleEngine.path_dirname
      SampleEngine.execPath SampleEngine.Diagram SampleEngine.Diagram_new
      SampleEngine.generate SampleEngine.svg_throws
      ["-d"; "st1.json"; "-w"] Sample.start
    = (inl SampleEngine.RenderError, Sample.start)
  ∧ Commands.applyCommands Sample.JSON_parse Sample.ERR_INVALID_ARG_TYPE
      Sample.writable SampleEngine.path_join SampleEngine.path_dirname
      SampleEngine.execPath SampleEngine.Diagram SampleEngine.Diagram_new
      SampleEngine.generate SampleEngine.svg_throws
      ["-d"; "st1.json"; "-o"; "out.svg"; "-w"] Sample.start
    = (inr (),
       Objects.logged Sample.start
         ["Error: the diagram cannot be drawn. Diagram was not generated."])
  ∧ Commands.applyCommands Sample.JSON_parse Sample.ERR_INVALID_ARG_TYPE
      Sample.writable SampleEngine.path_join SampleEngine.path_dirname
      SampleEngine.execPath SampleEngine.Diagram SampleEngine.Diagram_new
      SampleEngine.generate SampleEngine.svg_svg
      ["-d"; "st1.json"; "-o"; "out.svg"; "-w"] Sample.start
    = (inr (), State (<["out.svg" := inr "<svg/>"]> Sample.disk) []).
Proof. split_and!; by_evaluation. Qed.
